(** * Route optimizer of the logistics MVP: a shallow embedding of
    [app/optimizer.py] and the properties of its routing engine.

    Python floats are IEEE 754 binary64 numbers and are modelled by Rocq's
    primitive floats; Python integers are unbounded and are modelled by [Z];
    lists are lists, the [visited] set of the greedy tour is a [gset nat].
    The libm behind the [math] module and the OR-Tools solver are not part
    of the repository: the engine is parametric in both.
    A Python exception is a value of [exn] carried by the [result] monad,
    whose third outcome, [Diverge], stands for a loop that is still running
    when the bound of its model is reached.

    A string is a sequence of characters of code point below 256 (ASCII
    and Latin-1); the few string operations the optimizer uses ([strip],
    [lower], [split], [int]) are modelled on them. *)

From Stdlib Require Import ZArith Floats Ascii String List Lia Permutation.
From Stdlib Require Import DecimalString.
From stdpp Require Import base decidable option list gmap.
Import ListNotations.

Set Warnings "-inexact-float,-clear-no-such-hyp".
Local Open Scope string_scope.
Local Open Scope list_scope.
Local Open Scope Z_scope.

(** ** Exceptions *)

Inductive exn : Type :=
  | ValueError
  | TypeError
  | IndexError
  | OverflowError
  | ZeroDivisionError
  | SolverError.

Inductive result (A : Type) : Type :=
  | Ok (a : A)
  | Raise (e : exn)
  | Diverge.
Arguments Ok {A} a.
Arguments Raise {A} e.
Arguments Diverge {A}.

#[global] Instance result_ret : MRet result := fun _ a => Ok a.
#[global] Instance result_bind : MBind result := fun _ _ f m =>
  match m with
  | Ok a => f a
  | Raise e => Raise e
  | Diverge => Diverge
  end.

Definition is_ok {A} (m : result A) : bool :=
  match m with Ok _ => true | _ => false end.

Definition raises {A} (m : result A) : Prop := exists e, m = Raise e.

(** A computation that ends: with a value or with an exception. *)
Definition ends {A} (m : result A) : Prop := m <> Diverge.

(** ** Python builtins on strings *)

Module Py.

(** [str.isspace] on one character: TAB, LF, VT, FF, CR, the four
    separators 0x1c-0x1f, the space, NEL (0x85) and the no-break space
    (0xa0). *)
Definition isspace (c : ascii) : bool :=
  let n := nat_of_ascii c in
  ((9 <=? n)%nat && (n <=? 13)%nat) || ((28 <=? n)%nat && (n <=? 32)%nat)
  || (n =? 133)%nat || (n =? 160)%nat.

(** The white space [int] skips: as [isspace], without the separators
    0x1c-0x1f. *)
Definition int_isspace (c : ascii) : bool :=
  let n := nat_of_ascii c in
  ((9 <=? n)%nat && (n <=? 13)%nat) || (n =? 32)%nat
  || (n =? 133)%nat || (n =? 160)%nat.

Fixpoint lstrip (space : ascii -> bool) (s : list ascii) : list ascii :=
  match s with
  | c :: s' => if space c then lstrip space s' else s
  | [] => []
  end.

Definition strip_with (space : ascii -> bool) (s : list ascii)
  : list ascii :=
  rev (lstrip space (rev (lstrip space s))).

Definition strip (s : string) : string :=
  string_of_list_ascii (strip_with isspace (list_ascii_of_string s)).

(** [A-Z] and the Latin-1 capitals 0xc0-0xde (0xd7, the multiplication sign,
    apart) have their small letter 32 code points up. *)
Definition lower_char (c : ascii) : ascii :=
  let n := nat_of_ascii c in
  if ((65 <=? n)%nat && (n <=? 90)%nat)
     || ((192 <=? n)%nat && (n <=? 222)%nat && negb (n =? 215)%nat)
  then ascii_of_nat (n + 32) else c.

Definition lower (s : string) : string :=
  string_of_list_ascii (map lower_char (list_ascii_of_string s)).

(** [s.split(sep)] for a one-character separator: the pieces between the
    occurrences of [sep]; never the empty list. *)
Fixpoint split_acc (sep : ascii) (cur : list ascii) (s : list ascii)
  : list string :=
  match s with
  | [] => [string_of_list_ascii (rev cur)]
  | c :: s' =>
      if Ascii.eqb c sep
      then string_of_list_ascii (rev cur) :: split_acc sep [] s'
      else split_acc sep (c :: cur) s'
  end.

Definition split (sep : ascii) (s : string) : list string :=
  split_acc sep [] (list_ascii_of_string s).

Definition digit_val (c : ascii) : option Z :=
  let n := nat_of_ascii c in
  if (48 <=? n)%nat && (n <=? 57)%nat then Some (Z.of_nat (n - 48)) else None.

Definition underscore : ascii := "_"%char.

(** The digits of a decimal literal as [int] accepts them: a digit first,
    then digits, each optionally preceded by one underscore. [acc] is the
    value read so far. *)
Fixpoint digits_tail (acc : Z) (s : list ascii) : option Z :=
  match s with
  | [] => Some acc
  | c :: s' =>
      match digit_val c with
      | Some d => digits_tail (acc * 10 + d) s'
      | None =>
          if Ascii.eqb c underscore then
            match s' with
            | c' :: s'' =>
                match digit_val c' with
                | Some d => digits_tail (acc * 10 + d) s''
                | None => None
                end
            | [] => None
            end
          else None
      end
  end.

Definition digits (s : list ascii) : option Z :=
  match s with
  | c :: s' =>
      match digit_val c with
      | Some d => digits_tail d s'
      | None => None
      end
  | [] => None
  end.

(** [int(s)] for a string: surrounding white space is dropped, one sign is
    allowed, the rest is a decimal literal; anything else is a ValueError.
    (The bound recent CPython versions put on the number of digits is not
    modelled.) *)
Definition int (s : string) : result Z :=
  let body := strip_with int_isspace (list_ascii_of_string s) in
  let '(neg, ds) :=
    match body with
    | c :: rest =>
        if Ascii.eqb c "-"%char then (true, rest)
        else if Ascii.eqb c "+"%char then (false, rest)
        else (false, body)
    | [] => (false, body)
    end in
  match digits ds with
  | Some v => Ok (if neg then - v else v)
  | None => Raise ValueError
  end.

(** [x or d] on an optional integer: [None] and [0] are both falsy. *)
Definition or_else (x : option Z) (d : Z) : Z :=
  match x with
  | Some v => if v =? 0 then d else v
  | None => d
  end.

End Py.

(** ** The time-window codec *)

Definition parse_hhmm (hhmm : option string) : result (option Z) :=
  match hhmm with
  | None => Ok None
  | Some s =>
      if String.eqb s EmptyString || String.eqb (Py.strip s) EmptyString
         || String.eqb (Py.lower s) "nan"
      then Ok None
      else
        match Py.split ":"%char s with
        | [hh; mm] =>
            h ← Py.int hh;
            m ← Py.int mm;
            Ok (Some (h * 60 + m))
        | _ => Raise ValueError
        end
  end.


(** ** Python builtins on floats *)

Module PyFloat.

(** The integer nearest to [m * 2^e], ties to the even one. *)
Definition round_half_even (m : positive) (e : Z) : Z :=
  match e with
  | Zneg p =>
      let d := 2 ^ Zpos p in
      let q := Zpos m / d in
      let r := Zpos m mod d in
      match 2 * r ?= d with
      | Lt => q
      | Gt => q + 1
      | Eq => if Z.even q then q else q + 1
      end
  | _ => Zpos m * 2 ^ e
  end.

(** [round(x)]: the nearest integer, ties to even; NaN and the infinities
    have no integer value. *)
Definition round (x : float) : result Z :=
  match Prim2SF x with
  | S754_nan => Raise ValueError
  | S754_infinity _ => Raise OverflowError
  | S754_zero _ => Ok 0
  | S754_finite s m e =>
      let k := round_half_even m e in Ok (if s then - k else k)
  end.

(** [round(x, 2)]: the double nearest to the two-decimal number nearest to
    [x] (ties to even); NaN, the infinities and the zeros round to
    themselves. *)
Definition round2 (x : float) : float :=
  match Prim2SF x with
  | S754_finite s m e =>
      match round_half_even (m * 100) e with
      | Zpos k =>
          SF2Prim (SFdiv prec emax (S754_finite s k 0) (S754_finite false 100 0))
      | _ => SF2Prim (S754_zero s)
      end
  | _ => x
  end.

(** [int(x)]: truncation towards zero. *)
Definition trunc (x : float) : result Z :=
  match Prim2SF x with
  | S754_nan => Raise ValueError
  | S754_infinity _ => Raise OverflowError
  | S754_zero _ => Ok 0
  | S754_finite s m e =>
      let k := match e with
               | Zneg p => Zpos m / 2 ^ Zpos p
               | _ => Zpos m * 2 ^ e
               end in
      Ok (if s then - k else k)
  end.

(** The float of a Python integer, as [int / float] converts it: correctly
    rounded, OverflowError beyond the range of a double. *)
Definition of_int (z : Z) : result float :=
  match binary_normalize prec emax z 0 false with
  | S754_infinity _ => Raise OverflowError
  | sf => Ok (SF2Prim sf)
  end.

End PyFloat.

(** ** The [math] module

    [math.sin], [math.cos], [math.asin] and the C [pow] behind [**] are the
    platform's libm, which is not part of the repository: the development
    is parametric in them. *)

Record Libm : Type := {
  c_sin : float -> float;
  c_cos : float -> float;
  c_asin : float -> float;
  c_pow : float -> float -> float;
}.

Module math.

(** The wrapper CPython puts around a libm function of one argument. *)
Definition math_1 (f : float -> float) (x : float) : result float :=
  let r := f x in
  if is_nan r && negb (is_nan x) then Raise ValueError
  else if is_infinity r && is_finite x then Raise ValueError
  else Ok r.

Definition pi : float := 0x1.921fb54442d18p+1%float.
Definition degToRad : float := (pi / 180)%float.

Definition radians (x : float) : float := (x * degToRad)%float.
Definition sin (lm : Libm) := math_1 (c_sin lm).
Definition cos (lm : Libm) := math_1 (c_cos lm).
Definition asin (lm : Libm) := math_1 (c_asin lm).
Definition sqrt := math_1 PrimFloat.sqrt.

(** [x ** 2] on a float: the special cases CPython settles itself, then
    the C [pow] on the absolute value (the exponent is even), whose overflow
    is an OverflowError. *)
Definition pow2 (lm : Libm) (x : float) : result float :=
  if is_nan x then Ok x
  else if is_infinity x then Ok infinity
  else if is_zero x then Ok 0%float
  else if (abs x =? 1)%float then Ok 1%float
  else
    let r := c_pow lm (abs x) 2%float in
    if is_infinity r then Raise OverflowError else Ok r.

End math.

(** ** Data model *)

Definition LatLng : Type := float * float.

(** A stop is the tuple [(id, lat, lng, name, demand, tw_start, tw_end)]. *)
Record Stop : Type := mkStop {
  stop_id : string;
  stop_lat : float;
  stop_lng : float;
  stop_name : option string;
  stop_demand : Z;
  stop_tw_start : option string;
  stop_tw_end : option string;
}.

Definition stop_pos (s : Stop) : LatLng := (stop_lat s, stop_lng s).

(** The mapping a route holds for a visited stop. *)
Record Visit : Type := mkVisit {
  v_id : string;
  v_lat : float;
  v_lng : float;
  v_name : option string;
  v_demand : Z;
}.

Definition visit_of (s : Stop) : Visit :=
  {| v_id := stop_id s; v_lat := stop_lat s; v_lng := stop_lng s;
     v_name := stop_name s; v_demand := stop_demand s |}.

Record RoutingResult : Type := mkResult {
  engine : string;
  routes : list (list Visit);
  total_miles : float;
  baseline_miles : float;
  savings_pct : float;
  note : option string;
}.

(** ** The constrained solver (OR-Tools), an optional capability

    What [optimize_routes] hands to the solver, and what it reads back. *)

Record RoutingModel : Type := mkModel {
  rm_nodes : nat;                     (* RoutingIndexManager(n, _, _) *)
  rm_vehicles : Z;                    (* RoutingIndexManager(_, vehicle_count, _) *)
  rm_depot : nat;                     (* RoutingIndexManager(_, _, 0) *)
  rm_arc_cost : list (list Z);        (* distance_callback: dist_mmile *)
  rm_demands : list Z;                (* demand_callback *)
  rm_capacities : list Z;             (* AddDimensionWithVehicleCapacity *)
  rm_transit_minutes : nat -> nat -> result Z;  (* travel_time_callback *)
  rm_slack : Z;                       (* AddDimension(_, 30, _, _, _) *)
  rm_horizon : Z;                     (* AddDimension(_, _, 1440, _, _) *)
  rm_windows : list (Z * Z);          (* CumulVar(node).SetRange(start, end) *)
  rm_time_limit : Z;                  (* seconds *)
}.

(** The answer of the solver is nothing ([None]) or an assignment: for each
    vehicle, the nodes met from [Start(v)] up to, and without, the end of
    its route.

    The engine reaches the library in three steps, in this order:
    - [AddDimension]: the index manager, the routing model, its callbacks,
      the capacity dimension and the time dimension (lines 91 to 124),
      which see the model before any time window is read;
    - [SetRange]: the window of one node (lines 128 and 133), right after
      the two strings of that node are parsed;
    - [SolveWithParameters]: the finalizers, the search parameters and the
      search (lines 135 to 144), on the whole model.
    Each step may fail or not come back, and what the library does then is
    not part of the repository. [None] for the solver itself is
    [HAVE_OR_TOOLS = False]. *)
Definition Assignment : Type := list (list nat).

Record ORTools : Type := {
  AddDimension : RoutingModel -> result unit;
  SetRange : nat -> Z * Z -> result unit;
  SolveWithParameters : RoutingModel -> result (option Assignment);
}.

(** ** The engine *)

Section Engine.

Context (libm : Libm).

Definition MILES_PER_KM : float := 0.621371%float.

Definition haversine_miles (a b : LatLng) : result float :=
  let R := 6371.0%float in
  let lat1 := math.radians a.1 in
  let lon1 := math.radians a.2 in
  let lat2 := math.radians b.1 in
  let lon2 := math.radians b.2 in
  let dlat := (lat2 - lat1)%float in
  let dlon := (lon2 - lon1)%float in
  s1 ← math.sin libm (dlat / 2)%float;
  p1 ← math.pow2 libm s1;
  c1 ← math.cos libm lat1;
  c2 ← math.cos libm lat2;
  s2 ← math.sin libm (dlon / 2)%float;
  p2 ← math.pow2 libm s2;
  let h := (p1 + c1 * c2 * p2)%float in
  q ← math.sqrt h;
  a ← math.asin libm q;
  let km := (2 * R * a)%float in
  Ok (km * MILES_PER_KM)%float.

(** One pass of the [for i, s in enumerate(stops)] loop of [_greedy_order],
    from index [i] on: the best index and distance so far are updated on a
    strictly smaller distance only. *)
Fixpoint nearest (visited : gset nat) (curr : LatLng) (i : nat)
    (ss : list Stop) (best_idx : option nat) (best_dist : float)
  : result (option nat * float) :=
  match ss with
  | [] => Ok (best_idx, best_dist)
  | s :: ss' =>
      if decide (i ∈ visited) then
        nearest visited curr (S i) ss' best_idx best_dist
      else
        d ← haversine_miles curr (stop_pos s);
        if (d <? best_dist)%float
        then nearest visited curr (S i) ss' (Some i) d
        else nearest visited curr (S i) ss' best_idx best_dist
  end.

(** The [while len(visited) < len(stops)] loop. When no stop beats
    [float("inf")], [best_idx] is still [None] and [stops[None]] is a
    TypeError. [fuel] bounds the number of iterations. *)
Fixpoint greedy_loop (fuel : nat) (stops : list Stop) (visited : gset nat)
    (order : list nat) (curr : LatLng) : result (list nat) :=
  if decide (size visited < length stops)%nat then
    match fuel with
    | O => Diverge
    | S fuel' =>
        '(best_idx, _) ← nearest visited curr 0 stops None infinity;
        match best_idx with
        | None => Raise TypeError
        | Some best_idx =>
            match stops !! best_idx with
            | None => Raise IndexError
            | Some s =>
                greedy_loop fuel' stops ({[best_idx]} ∪ visited)
                  (order ++ [best_idx]) (stop_pos s)
            end
        end
    end
  else Ok order.

Definition _greedy_order (depot : LatLng) (stops : list Stop)
  : result (list nat) :=
  greedy_loop (length stops) stops ∅ [] depot.

(** *** The distance matrix of the constrained router *)

Fixpoint mapM {A B} (f : A -> result B) (l : list A) : result (list B) :=
  match l with
  | [] => Ok []
  | a :: l' => b ← f a; bs ← mapM f l'; Ok (b :: bs)
  end.

(** [dist_mmile[i][j] = int(round(miles * 1000))], zero on the diagonal. *)
Definition dist_cell (i j : nat) (pi pj : Stop) : result Z :=
  if decide (i = j) then Ok 0
  else
    miles ← haversine_miles (stop_pos pi) (stop_pos pj);
    PyFloat.round (miles * 1000)%float.

Definition dist_matrix (points : list Stop) : result (list (list Z)) :=
  mapM (fun '(i, pi) =>
          mapM (fun '(j, pj) => dist_cell i j pi pj)
               (imap pair points))
       (imap pair points).

(** [m[i][j]]; an index out of range is an IndexError. *)
Definition cell (m : list (list Z)) (i j : nat) : result Z :=
  match m !! i with
  | Some row =>
      match row !! j with
      | Some c => Ok c
      | None => Raise IndexError
      end
  | None => Raise IndexError
  end.

Definition AVG_MPH : float := 20%float.
Definition horizon : Z := 24 * 60.

Definition travel_time_callback (dist_mmile : list (list Z))
    (from_node to_node : nat) : result Z :=
  mmiles ← cell dist_mmile from_node to_node;
  f ← PyFloat.of_int mmiles;
  let miles := (f / 1000.0)%float in
  PyFloat.trunc (miles / (AVG_MPH / 60.0))%float.

(** The bounds of one time window: [parse_hhmm(start) or 0] and
    [parse_hhmm(end) or horizon]. *)
Definition window (tw_start tw_end : option string) : result (Z * Z) :=
  a ← parse_hhmm tw_start;
  b ← parse_hhmm tw_end;
  Ok (Py.or_else a 0, Py.or_else b horizon).

Definition depot_point (depot : LatLng) (tws twe : option string) : Stop :=
  {| stop_id := "depot"; stop_lat := depot.1; stop_lng := depot.2;
     stop_name := Some "Depot"; stop_demand := 0;
     stop_tw_start := tws; stop_tw_end := twe |}.

(** The model the search is given once every step before it has returned:
    the matrix, the fleet and the time windows (depot, then stops). *)
Definition build_model (depot : LatLng) (stops : list Stop)
    (vehicle_count vehicle_capacity : Z)
    (depot_tw_start depot_tw_end : option string) : result RoutingModel :=
  let points := depot_point depot depot_tw_start depot_tw_end :: stops in
  let n := length points in
  dist_mmile ← dist_matrix points;
  let demands := 0 :: map (fun s => Z.max 0 (stop_demand s)) stops in
  let capacities :=
    replicate (Z.to_nat vehicle_count) (Z.max 1 vehicle_capacity) in
  wd ← window depot_tw_start depot_tw_end;
  ws ← mapM (fun s => window (stop_tw_start s) (stop_tw_end s)) stops;
  Ok {| rm_nodes := n; rm_vehicles := vehicle_count; rm_depot := 0;
        rm_arc_cost := dist_mmile; rm_demands := demands;
        rm_capacities := capacities;
        rm_transit_minutes := travel_time_callback dist_mmile;
        rm_slack := 30; rm_horizon := horizon;
        rm_windows := wd :: ws; rm_time_limit := 5 |}.

(** *** Reading the routes out of a solution *)

(** The [while not routing.IsEnd(index)] loop over the nodes of one vehicle:
    the depot (node 0) is skipped, every other node is appended to the
    route and its arc from the previous node is added to the cost. *)
Fixpoint walk_route (points : list Stop) (dist_mmile : list (list Z))
    (nodes : list nat) (prev : nat) (vehicle_route : list Visit)
    (total_mmiles : Z) : result (nat * list Visit * Z) :=
  match nodes with
  | [] => Ok (prev, vehicle_route, total_mmiles)
  | node :: nodes' =>
      if decide (node = 0%nat) then
        walk_route points dist_mmile nodes' prev vehicle_route total_mmiles
      else
        match points !! node with
        | None => Raise IndexError
        | Some p =>
            c ← cell dist_mmile prev node;
            walk_route points dist_mmile nodes' node
              (vehicle_route ++ [visit_of p]) (total_mmiles + c)
        end
  end.

(** The [for v in range(vehicle_count)] loop, from vehicle [v] on, [k]
    vehicles to go. *)
Fixpoint read_solution (points : list Stop) (dist_mmile : list (list Z))
    (solution : Assignment) (v k : nat) (routes : list (list Visit))
    (total_mmiles : Z) : result (list (list Visit) * Z) :=
  match k with
  | O => Ok (routes, total_mmiles)
  | S k' =>
      '(prev, vehicle_route, total_mmiles) ←
        walk_route points dist_mmile (default [] (solution !! v)) 0 []
          total_mmiles;
      c ← cell dist_mmile prev 0;
      let routes :=
        match vehicle_route with
        | [] => routes
        | _ => routes ++ [vehicle_route]
        end in
      read_solution points dist_mmile solution (S v) k' routes
        (total_mmiles + c)
  end.

(** What the library has been told at a point of the [if HAVE_OR_TOOLS:]
    block: the matrix, the fleet and the [windows] set so far. *)
Definition routing_model (stops : list Stop)
    (vehicle_count vehicle_capacity : Z) (dist_mmile : list (list Z))
    (windows : list (Z * Z)) : RoutingModel :=
  {| rm_nodes := S (length stops); rm_vehicles := vehicle_count;
     rm_depot := 0; rm_arc_cost := dist_mmile;
     rm_demands := 0 :: map (fun s => Z.max 0 (stop_demand s)) stops;
     rm_capacities :=
       replicate (Z.to_nat vehicle_count) (Z.max 1 vehicle_capacity);
     rm_transit_minutes := travel_time_callback dist_mmile;
     rm_slack := 30; rm_horizon := horizon;
     rm_windows := windows; rm_time_limit := 5 |}.

(** [for i in range(1, n)]: the two strings of node [i] are parsed, then
    its window is handed to the library, node after node. *)
Fixpoint set_windows (solver : ORTools) (i : nat) (stops : list Stop)
  : result (list (Z * Z)) :=
  match stops with
  | [] => Ok []
  | s :: stops' =>
      w ← window (stop_tw_start s) (stop_tw_end s);
      _ ← SetRange solver i w;
      ws ← set_windows solver (S i) stops';
      Ok (w :: ws)
  end.

(** The [if HAVE_OR_TOOLS:] block, in the order of the source: the matrix,
    the set-up of the library, the window of the depot, the windows of the
    stops, the search, the routes. [None]: no feasible solution. *)
Definition constrained_router (solver : ORTools) (depot : LatLng)
    (stops : list Stop) (vehicle_count vehicle_capacity : Z)
    (depot_tw_start depot_tw_end : option string)
  : result (option (list (list Visit) * float)) :=
  let points := depot_point depot depot_tw_start depot_tw_end :: stops in
  dist_mmile ← dist_matrix points;
  _ ← AddDimension solver
        (routing_model stops vehicle_count vehicle_capacity dist_mmile []);
  wd ← window depot_tw_start depot_tw_end;
  _ ← SetRange solver 0 wd;
  ws ← set_windows solver 1 stops;
  let model :=
    routing_model stops vehicle_count vehicle_capacity dist_mmile
      (wd :: ws) in
  solution ← SolveWithParameters solver model;
  match solution with
  | Some solution =>
      '(routes, total_mmiles) ←
        read_solution points dist_mmile solution 0
          (Z.to_nat vehicle_count) [] 0;
      f ← PyFloat.of_int total_mmiles;
      Ok (Some (routes, PyFloat.round2 (f / 1000.0)%float))
  | None => Ok None
  end.

(** *** The greedy fallback router *)

(** [for idx, s_idx in enumerate(order): buckets[idx % len(buckets)].append(s_idx)],
    from position [idx] on. The list of buckets is never empty: it is built
    with [max(1, vehicle_count)] entries. *)
Fixpoint fill_buckets (buckets : list (list nat)) (idx : nat)
    (order : list nat) : list (list nat) :=
  match order with
  | [] => buckets
  | s_idx :: order' =>
      fill_buckets
        (alter (fun b => b ++ [s_idx]) (idx mod length buckets)%nat buckets)
        (S idx) order'
  end.

(** The [for idx in b] loop over one bucket. *)
Fixpoint walk_bucket (stops : list Stop) (b : list nat) (curr : LatLng)
    (vehicle : list Visit) (total : float)
  : result (LatLng * list Visit * float) :=
  match b with
  | [] => Ok (curr, vehicle, total)
  | idx :: b' =>
      match stops !! idx with
      | None => Raise IndexError
      | Some s =>
          d ← haversine_miles curr (stop_pos s);
          walk_bucket stops b' (stop_pos s) (vehicle ++ [visit_of s])
            (total + d)%float
      end
  end.

(** The [for b in buckets] loop: a bucket left empty adds the (zero-length)
    leg depot-depot to the total and no route. *)
Fixpoint walk_buckets (depot : LatLng) (stops : list Stop)
    (buckets : list (list nat)) (routes : list (list Visit)) (total : float)
  : result (list (list Visit) * float) :=
  match buckets with
  | [] => Ok (routes, total)
  | b :: buckets' =>
      '(curr, vehicle, total) ← walk_bucket stops b depot [] total;
      d ← haversine_miles curr depot;
      let routes :=
        match vehicle with
        | [] => routes
        | _ => routes ++ [vehicle]
        end in
      walk_buckets depot stops buckets' routes (total + d)%float
  end.

Definition greedy_buckets (depot : LatLng) (stops : list Stop)
    (vehicle_count : Z) : result (list (list nat)) :=
  order ← _greedy_order depot stops;
  Ok (fill_buckets (replicate (Z.to_nat (Z.max 1 vehicle_count)) []) 0 order).

(** The [if engine == "greedy-fallback":] block. *)
Definition greedy_router (depot : LatLng) (stops : list Stop)
    (vehicle_count : Z) : result (list (list Visit) * float) :=
  buckets ← greedy_buckets depot stops vehicle_count;
  '(routes, total) ← walk_buckets depot stops buckets [] 0%float;
  Ok (routes, PyFloat.round2 total).

(** *** Baseline and savings *)

Fixpoint baseline_walk (stops : list Stop) (curr : LatLng) (baseline : float)
  : result (LatLng * float) :=
  match stops with
  | [] => Ok (curr, baseline)
  | s :: stops' =>
      d ← haversine_miles curr (stop_pos s);
      baseline_walk stops' (stop_pos s) (baseline + d)%float
  end.

Definition baseline_of (depot : LatLng) (stops : list Stop) : result float :=
  '(curr, baseline) ← baseline_walk stops depot 0%float;
  d ← haversine_miles curr depot;
  Ok (PyFloat.round2 (baseline + d)%float).

Definition savings_of (baseline_miles total_miles : float) : float :=
  if (0 <? baseline_miles)%float
  then PyFloat.round2
         ((baseline_miles - total_miles) / baseline_miles * 100)%float
  else 0%float.

Definition note_infeasible : string :=
  "No feasible OR-Tools solution found; using greedy fallback.".
Definition note_install : string :=
  "Install OR-Tools to enforce capacity/time windows exactly.".

(** *** The orchestrator

    [ortools] is [Some solver] when the import of OR-Tools succeeded
    ([HAVE_OR_TOOLS]) and [None] otherwise. *)
Definition optimize_routes (ortools : option ORTools) (depot : LatLng)
    (stops : list Stop) (vehicle_count vehicle_capacity : Z)
    (depot_tw_start depot_tw_end : option string) : result RoutingResult :=
  if decide (length stops = 0%nat) then
    Ok {| engine := "none"; routes := []; total_miles := 0%float;
          baseline_miles := 0%float; savings_pct := 0%float;
          note := Some "no stops" |}
  else
    '(engine, note, routes, total_miles) ←
      match ortools with
      | Some solver =>
          solved ← constrained_router solver depot stops vehicle_count
                     vehicle_capacity depot_tw_start depot_tw_end;
          match solved with
          | Some (routes, total_miles) =>
              Ok ("ortools", None, routes, total_miles)
          | None =>
              Ok ("greedy-fallback", Some note_infeasible, [], 0%float)
          end
      | None => Ok ("greedy-fallback", None, [], 0%float)
      end;
    '(note, routes, total_miles) ←
      (if String.eqb engine "greedy-fallback" then
         '(routes, total_miles) ← greedy_router depot stops vehicle_count;
         Ok (match note with
             | None => Some note_install
             | Some _ => note
             end, routes, total_miles)
       else Ok (note, routes, total_miles));
    baseline_miles ← baseline_of depot stops;
    Ok {| engine := engine; routes := routes; total_miles := total_miles;
          baseline_miles := baseline_miles;
          savings_pct := savings_of baseline_miles total_miles;
          note := note |}.

End Engine.

(** ** The route map

    [build_map_html] draws the routes of a result on a folium map. The map
    is modelled by what the function puts into it: its centre, its zoom and
    its layers in the order they are added. *)

(** [str(z)] of an integer, as an f-string prints it: its decimal digits. *)
Definition str_int (z : Z) : string := NilZero.string_of_int (Z.to_int z).

Inductive Layer : Type :=
  | Marker (location : LatLng) (popup tooltip : string)
  | PolyLine (locations : list LatLng).

Record FoliumMap : Type := mkMap {
  map_location : LatLng;
  map_zoom_start : Z;
  map_layers : list Layer;
}.

Definition visit_pos (s : Visit) : LatLng := (v_lat s, v_lng s).

(** [s.get('name') or s['id']]: a missing or empty name gives the id. *)
Definition stop_label (s : Visit) : string :=
  match v_name s with
  | Some name => if String.eqb name EmptyString then v_id s else name
  | None => v_id s
  end.

(** The two characters, U+00C2 and U+00B7, that the popup has between the
    vehicle and the stop. *)
Definition popup_sep : string :=
  String (ascii_of_nat 194) (String (ascii_of_nat 183) EmptyString).

Definition popup_text (r_idx i : nat) (s : Visit) : string :=
  String.concat EmptyString
    ["Veh "; str_int (Z.of_nat r_idx); " "; popup_sep; " Stop ";
     str_int (Z.of_nat i); ": "; stop_label s; " (demand=";
     str_int (v_demand s); ")"].

(** The centre of a map without points. *)
Definition default_point : LatLng := (51.5072, -0.1276)%float.

Section RouteMap.

(** The builtin [sum] on floats is not the same function in every version
    of the interpreter (a plain sum from left to right, or a compensated
    one): the map is parametric in it. *)
Context (float_sum : list float -> float).

(** [sum(xs) / len(all_points)] *)
Definition mean_of (xs : list float) (len : nat) : result float :=
  n ← PyFloat.of_int (Z.of_nat len);
  if (n =? 0)%float then Raise ZeroDivisionError
  else Ok (float_sum xs / n)%float.

(** The loop over the stops of one route, from number [i] on: a marker for
    each stop, and its coordinates. *)
Fixpoint mark_route (r_idx i : nat) (route : list Visit)
    (coords : list LatLng) (layers : list Layer)
  : list LatLng * list Layer :=
  match route with
  | [] => (coords, layers)
  | s :: route' =>
      mark_route r_idx (S i) route' (coords ++ [visit_pos s])
        (layers ++
         [Marker (visit_pos s) (popup_text r_idx i s) (stop_label s)])
  end.

(** The loop over the routes, from number [r_idx] on; a route of two stops
    or more gets a line. *)
Fixpoint draw_routes (r_idx : nat) (rts : list (list Visit))
    (layers : list Layer) : list Layer :=
  match rts with
  | [] => layers
  | route :: rts' =>
      let '(coords, layers) := mark_route r_idx 1 route [] layers in
      let layers := if (2 <=? length coords)%nat
                    then layers ++ [PolyLine coords] else layers in
      draw_routes (S r_idx) rts' layers
  end.

(** The map that [build_map_html] saves under [out_path]. The calls into
    the file system that follow ([os.makedirs], [m.save]) are outside the
    model. *)
Definition build_map_html (res : RoutingResult) : result FoliumMap :=
  let all_points := concat (map (map visit_pos) (routes res)) in
  let all_points := match all_points with
                    | [] => [default_point]
                    | _ => all_points
                    end in
  lat ← mean_of (map fst all_points) (length all_points);
  lng ← mean_of (map snd all_points) (length all_points);
  Ok {| map_location := (lat, lng); map_zoom_start := 12;
        map_layers := draw_routes 1 (routes res) [] |}.

End RouteMap.

(** ** Vocabulary of the statements *)

Section Vocabulary.

Context (libm : Libm).

(** The distance is computed and compares below [float("inf")]: it is
    neither NaN nor an error of the [math] module. *)
Definition reachable (a b : LatLng) : bool :=
  match haversine_miles libm a b with
  | Ok d => (d <? infinity)%float
  | _ => false
  end.

(** Every leg between two points of the request (depot or stop) has such a
    distance. *)
Definition geodesy_ok (depot : LatLng) (stops : list Stop) : bool :=
  let pts := depot :: map stop_pos stops in
  forallb (fun a => forallb (reachable a) pts) pts.

(** The distance as a float, NaN where [haversine_miles] raises. *)
Definition miles (a b : LatLng) : float :=
  match haversine_miles libm a b with
  | Ok d => d
  | _ => nan
  end.

(** The nearest-neighbour choice in the words of the specification: [b] is
    an unvisited stop, no unvisited stop is nearer to the current position,
    and among the stops at the same distance [b] is the earliest in input
    order. *)
Definition spec_nearest (stops : list Stop) (curr : LatLng)
    (visited : gset nat) (b : nat) : Prop :=
  (b < length stops)%nat /\ (b ∉ visited) /\
  (forall j sj sb, stops !! j = Some sj -> stops !! b = Some sb ->
     j ∉ visited ->
     (miles curr (stop_pos sb) <=? miles curr (stop_pos sj))%float = true /\
     ((miles curr (stop_pos sj) =? miles curr (stop_pos sb))%float = true ->
      (b <= j)%nat)).

(** The global nearest-neighbour tour: from the current position, go to the
    nearest unvisited stop and continue from there until every stop is
    visited. *)
Inductive spec_tour (stops : list Stop)
  : LatLng -> gset nat -> list nat -> Prop :=
  | spec_tour_done curr visited :
      (forall j, (j < length stops)%nat -> j ∈ visited) ->
      spec_tour stops curr visited []
  | spec_tour_step curr visited b s rest :
      spec_nearest stops curr visited b ->
      stops !! b = Some s ->
      spec_tour stops (stop_pos s) ({[b]} ∪ visited) rest ->
      spec_tour stops curr visited (b :: rest).

(** Round-robin in the words of the specification: the [k]-th stop of the
    tour is the [k / count]-th stop of vehicle [k mod count]. *)
Definition spec_round_robin (count : nat) (order : list nat)
    (buckets : list (list nat)) : Prop :=
  length buckets = count /\
  (forall k s_idx, order !! k = Some s_idx ->
     exists b, buckets !! (k mod count)%nat = Some b /\
               b !! (k / count)%nat = Some s_idx) /\
  (forall v b p s_idx, buckets !! v = Some b -> b !! p = Some s_idx ->
     order !! (p * count + v)%nat = Some s_idx).

(** The route of a bucket of stop indices. *)
Definition visits (stops : list Stop) (b : list nat) : list Visit :=
  omap (fun idx => visit_of <$> stops !! idx) b.

(** The routes of a list of buckets: the empty ones are left out. *)
Definition routes_of (stops : list Stop) (buckets : list (list nat))
  : list (list Visit) :=
  map (visits stops) (filter (fun b => b <> []) buckets).

(** The legs of a drive from [curr] along [path] and then to [home]. *)
Fixpoint legs (curr : LatLng) (path : list LatLng) (home : LatLng)
  : list (LatLng * LatLng) :=
  match path with
  | [] => [(curr, home)]
  | p :: path' => (curr, p) :: legs p path' home
  end.

(** The legs a vehicle drives for a bucket: depot, its stops in order,
    depot. *)
Definition legs_of (depot : LatLng) (stops : list Stop) (b : list nat)
  : list (LatLng * LatLng) :=
  legs depot (omap (fun idx => stop_pos <$> stops !! idx) b) depot.

Definition add_leg (total : float) (leg : LatLng * LatLng) : float :=
  (total + miles leg.1 leg.2)%float.

(** The raw geodesic length of the routes of [buckets]: the distances of
    their legs, added up in the order they are driven. *)
Definition raw_miles (depot : LatLng) (stops : list Stop)
    (buckets : list (list nat)) : float :=
  fold_left add_leg (concat (map (legs_of depot stops) buckets)) 0%float.

(** The same tour as the solver would report it: node [i + 1] is stop [i],
    and each vehicle starts at node 0. *)
Definition as_assignment (buckets : list (list nat)) : Assignment :=
  map (fun b => 0%nat :: map S b) buckets.

(** Whether the greedy fallback is the router that runs: the solver is
    absent, or present and without a feasible solution. *)
Definition fallback_runs (ortools : option ORTools) (depot : LatLng)
    (stops : list Stop) (vehicle_count vehicle_capacity : Z)
    (depot_tw_start depot_tw_end : option string) : Prop :=
  match ortools with
  | None => True
  | Some solver =>
      constrained_router libm solver depot stops vehicle_count
        vehicle_capacity depot_tw_start depot_tw_end = Ok None
  end.

(** What the inner loop knows after the stops before [i]. *)
Definition best_inv (stops : list Stop) (curr : LatLng) (visited : gset nat) (i : nat)
    (best_idx : option nat) (best_dist : float) : Prop :=
  match best_idx with
  | None => best_dist = infinity /\ forall j, (j < i)%nat -> j ∈ visited
  | Some b =>
      (b < i)%nat /\ (b ∉ visited) /\
      (exists sb, stops !! b = Some sb /\
                  best_dist = miles curr (stop_pos sb)) /\
      forall j sj, (j < i)%nat -> stops !! j = Some sj -> j ∉ visited ->
        ((j < b)%nat -> (best_dist <? miles curr (stop_pos sj))%float = true) /\
        (miles curr (stop_pos sj) <? best_dist)%float = false
  end.

End Vocabulary.

(** The nodes of vehicle [v] in an assignment, the depot left out; the
    stops they stand for; and the arcs driven along a path, from the depot
    ([prev], at first) and back to it. *)
Definition solution_path (solution : Assignment) (v : nat) : list nat :=
  filter (fun node => node <> 0%nat) (default [] (solution !! v)).

Definition path_visits (points : list Stop) (path : list nat) : list Visit :=
  omap (fun node => visit_of <$> points !! node) path.

Fixpoint arcs_from (prev : nat) (path : list nat) : list (nat * nat) :=
  match path with
  | [] => [(prev, 0%nat)]
  | node :: path' => (prev, node) :: arcs_from node path'
  end.

(** The arcs of an assignment for the vehicles [0 .. vehicles - 1], and
    the routes of these vehicles that visit a stop. *)
Definition solution_arcs (solution : Assignment) (vehicles : nat)
  : list (nat * nat) :=
  concat (map (fun v => arcs_from 0 (solution_path solution v))
            (seq 0 vehicles)).

Definition solution_routes (points : list Stop) (solution : Assignment)
    (vehicles : nat) : list (list Visit) :=
  filter (fun route => 0 < length route)%nat
    (map (fun v => path_visits points (solution_path solution v))
       (seq 0 vehicles)).

(** The sum of the cells of a matrix over a list of arcs, each of which
    has to be a cell of the matrix. *)
Definition matrix_sum (dist_mmile : list (list Z)) (arcs : list (nat * nat))
  : result Z :=
  cells ← mapM (fun arc => cell dist_mmile arc.1 arc.2) arcs;
  Ok (foldr Z.add 0 cells).

(** The calls into the library that precede the search come back, with a
    value or with an exception. *)
Definition library_returns (solver : ORTools) : Prop :=
  (forall model, ends (AddDimension solver model)) /\
  (forall node w, ends (SetRange solver node w)).

(** The result of a request without stops. *)
Definition empty_result : RoutingResult :=
  {| engine := "none"; routes := []; total_miles := 0%float;
     baseline_miles := 0%float; savings_pct := 0%float;
     note := Some "no stops" |}.

(** After the first [idx] stops of the tour [full], position [p] of bucket
    [v] holds stop [p * K + v] of the tour. *)
Definition bucket_inv (K : nat) (full : list nat) (idx : nat)
    (buckets : list (list nat)) : Prop :=
  length buckets = K /\
  forall v b p, buckets !! v = Some b ->
    b !! p = if decide (p * K + v < idx)%nat then full !! (p * K + v)%nat
             else None.

(** ** Order of the floats, through their IEEE 754 specification *)

Definition sf_key (f : spec_float) : option (Z * Z * Z) :=
  match f with
  | S754_nan => None
  | S754_zero _ => Some (0, 0, 0)
  | S754_infinity s => Some (if s then -2 else 2, 0, 0)
  | S754_finite s m e =>
      Some (if s then (-1, - e, - Zpos m) else (1, e, Zpos m))
  end.

Definition key_lt (k1 k2 : Z * Z * Z) : Prop :=
  k1.1.1 < k2.1.1 \/
  (k1.1.1 = k2.1.1 /\
   (k1.1.2 < k2.1.2 \/ (k1.1.2 = k2.1.2 /\ k1.2 < k2.2))).

Definition key_cmp (c : comparison) (k1 k2 : Z * Z * Z) : Prop :=
  match c with
  | Lt => key_lt k1 k2
  | Eq => k1 = k2
  | Gt => key_lt k2 k1
  end.

Definition fkey (x : float) : option (Z * Z * Z) := sf_key (Prim2SF x).

(** ** Sample requests

    A libm by truncated power series, which agrees with the true functions
    to about twelve digits on the city-scale coordinates below, and solvers
    with a fixed answer. *)

Module Sample.

Fixpoint series (n : nat) (j term acc x2 : float) (step : float -> float)
  : float :=
  match n with
  | O => acc
  | S n' =>
      let term' := (term * x2 * step j)%float in
      series n' (j + 1)%float term' (acc + term')%float x2 step
  end.

Definition sin (x : float) : float :=
  series 12 0 x x (x * x)
    (fun j => (-1 / ((2 * j + 2) * (2 * j + 3)))%float).
Definition cos (x : float) : float :=
  series 12 0 1 1 (x * x)
    (fun j => (-1 / ((2 * j + 1) * (2 * j + 2)))%float).
Definition asin (x : float) : float :=
  series 12 0 x x (x * x)
    (fun j => ((2 * j + 1) * (2 * j + 1) / ((2 * j + 2) * (2 * j + 3)))%float).

Definition libm : Libm :=
  {| c_sin := sin; c_cos := cos; c_asin := asin;
     c_pow := fun x _ => (x * x)%float |}.

Definition depot : LatLng := (51.5072, -0.1276)%float.

Definition stop_A : Stop :=
  mkStop "A" 51.51%float (-0.12)%float None 3 None None.
Definition stop_B : Stop :=
  mkStop "B" 51.52%float (-0.13)%float None 4 None None.
Definition stop_C : Stop :=
  mkStop "C" 51.50%float (-0.10)%float (Some "Canal") 2 (Some "09:30")
    (Some "nan").

Definition stop_N : Stop :=
  mkStop "N" 51.554%float (-0.13)%float None 4 None None.

(** A stop whose time window is present and is not [HH:MM]. *)
Definition stop_late : Stop :=
  mkStop "L" 51.51%float (-0.12)%float None 1 (Some "late") None.

(** A solver that answers [answer] whatever the model. *)
Definition solver_answering (answer : option Assignment) : ORTools :=
  {| AddDimension := fun _ => Ok ();
     SetRange := fun _ _ => Ok ();
     SolveWithParameters := fun _ => Ok answer |}.

(** A solver that rejects a model without vehicles, when the model is set
    up, and otherwise finds nothing. *)
Definition solver_strict : ORTools :=
  {| AddDimension := fun m =>
       if rm_vehicles m <? 1 then Raise SolverError else Ok ();
     SetRange := fun _ _ => Ok ();
     SolveWithParameters := fun _ => Ok None |}.

End Sample.

(** ** Vocabulary of the further properties *)

(** The markers of a map (place, popup, tooltip) and its lines, each in the
    order they were added. *)
Definition markers (m : FoliumMap) : list (LatLng * string * string) :=
  omap (fun l => match l with
                 | Marker p popup tooltip => Some (p, popup, tooltip)
                 | PolyLine _ => None
                 end) (map_layers m).

Definition polylines (m : FoliumMap) : list (list LatLng) :=
  omap (fun l => match l with
                 | Marker _ _ _ => None
                 | PolyLine locations => Some locations
                 end) (map_layers m).

(** The layers of route number [r_idx]: its markers, then its line. *)
Definition route_layers (r_idx : nat) (route : list Visit) : list Layer :=
  imap (fun p s => Marker (visit_pos s) (popup_text r_idx (S p) s)
                     (stop_label s)) route
  ++ (if (2 <=? length route)%nat then [PolyLine (map visit_pos route)]
      else []).

(** The number of colons of a string. *)
Definition colons (s : string) : nat :=
  count_occ ascii_dec (list_ascii_of_string s) ":"%char.

(** The strings [parse_hhmm] reads as no window: empty, blank, or "nan" in
    any letter case. *)
Definition no_window (s : string) : Prop :=
  s = EmptyString \/ Py.strip s = EmptyString \/ Py.lower s = "nan".

(** [s] is [hh:mm], two pieces without a colon that [int] reads as [h] and
    [m], and [v] is [h * 60 + m]. *)
Definition reads_as (s : string) (v : Z) : Prop :=
  exists hh mm h m,
    s = (hh ++ ":" ++ mm)%string /\ colons hh = 0%nat /\ colons mm = 0%nat /\
    Py.int hh = Ok h /\ Py.int mm = Ok m /\ v = h * 60 + m.

(** [HH:MM] with two digits each, as [f"{h:02d}:{m:02d}"] prints it for
    numbers below a hundred. *)
Definition digit_char (d : nat) : ascii := ascii_of_nat (48 + d).

Definition hhmm_text (h m : nat) : string :=
  string_of_list_ascii
    [digit_char (h / 10); digit_char (h mod 10); ":"%char;
     digit_char (m / 10); digit_char (m mod 10)].

Definition hhmm_reads_back (h m : nat) : bool :=
  match parse_hhmm (Some (hhmm_text h m)) with
  | Ok (Some v) => v =? Z.of_nat (60 * h + m)
  | _ => false
  end.

(** Whether the travel time of [mmiles] thousandths of a mile is three
    minutes a mile, rounded down; and whether it is so for the [n] distances
    from [mmiles] on. *)
Definition three_minutes_a_mile (mmiles : Z) : bool :=
  match travel_time_callback [[mmiles]] 0 0 with
  | Ok minutes => minutes =? 3 * mmiles / 1000
  | _ => false
  end.

Fixpoint three_minutes_from (n : nat) (mmiles : Z) : bool :=
  match n with
  | O => true
  | S n' =>
      three_minutes_a_mile mmiles && three_minutes_from n' (mmiles + 1)
  end.

(** The sum of the floats from left to right, starting from zero. *)
Definition plain_sum (xs : list float) : float :=
  fold_left PrimFloat.add xs 0%float.

(** * Properties *)

(** ** The result monad *)

Lemma bind_Ok {A B} (m : result A) (f : A -> result B) (b : B) :
  m ≫= f = Ok b <-> exists a, m = Ok a /\ f a = Ok b.
Proof.
  destruct m as [a|e|]; simpl; split; try done.
  - eauto.
  - by intros (a' & [= ->] & ?).
  - by intros (a' & [=] & _).
  - by intros (a' & [=] & _).
Qed.

(** ** Order of the floats *)

Ltac key_done :=
  eexists; (split; [reflexivity|]); unfold key_cmp, key_lt; simpl;
  first [reflexivity | lia | (f_equal; lia)].

Lemma SFcompare_key f1 f2 k1 k2 :
  sf_key f1 = Some k1 -> sf_key f2 = Some k2 ->
  exists c, SFcompare f1 f2 = Some c /\ key_cmp c k1 k2.
Proof.
  destruct f1 as [s1|s1| |s1 m1 e1], f2 as [s2|s2| |s2 m2 e2]; simpl;
    intros H1 H2; try discriminate;
    injection H1 as <-; injection H2 as <-.
  all: try (destruct s1; key_done).
  all: try (destruct s2; key_done).
  all: try (destruct s1, s2; key_done).
  destruct s1, s2; try key_done.
  - destruct (Z.compare_spec e1 e2) as [->|He|He]; try key_done.
    change (PosDef.Pos.compare_cont Eq m1 m2) with (Pos.compare m1 m2).
    destruct (Pos.compare_spec m1 m2) as [->|Hm|Hm]; key_done.
  - destruct (Z.compare_spec e1 e2) as [->|He|He]; try key_done.
    change (PosDef.Pos.compare_cont Eq m1 m2) with (Pos.compare m1 m2).
    destruct (Pos.compare_spec m1 m2) as [->|Hm|Hm]; key_done.
Qed.

Lemma SFcompare_nan_l f : sf_key f = None -> forall g, SFcompare f g = None.
Proof. destruct f; try done. Qed.

Lemma SFcompare_nan_r g : sf_key g = None -> forall f, SFcompare f g = None.
Proof. destruct g; try done. by intros _ [[]|[]| |[]]. Qed.

(** A float below another has a key, and so has the other. *)
Lemma ltb_key x y :
  (x <? y)%float = true <->
  exists k1 k2, fkey x = Some k1 /\ fkey y = Some k2 /\ key_lt k1 k2.
Proof.
  rewrite FloatAxioms.ltb_spec. unfold SFltb, fkey. split.
  - destruct (sf_key (Prim2SF x)) as [k1|] eqn:E1; last first.
    { by rewrite (SFcompare_nan_l _ E1). }
    destruct (sf_key (Prim2SF y)) as [k2|] eqn:E2; last first.
    { by rewrite (SFcompare_nan_r _ E2). }
    destruct (SFcompare_key _ _ _ _ E1 E2) as (c & -> & Hc).
    destruct c; try discriminate. eauto.
  - intros (k1 & k2 & E1 & E2 & Hlt).
    destruct (SFcompare_key _ _ _ _ E1 E2) as (c & -> & Hc).
    destruct c; simpl in Hc; auto; unfold key_lt in *; subst; lia.
Qed.

Lemma ltb_false_key x y k1 k2 :
  fkey x = Some k1 -> fkey y = Some k2 ->
  (x <? y)%float = false -> ~ key_lt k1 k2.
Proof.
  intros E1 E2 Hf Hlt.
  assert ((x <? y)%float = true) as Ht by (apply ltb_key; eauto).
  congruence.
Qed.

Lemma leb_key x y k1 k2 :
  fkey x = Some k1 -> fkey y = Some k2 ->
  ~ key_lt k2 k1 -> (x <=? y)%float = true.
Proof.
  intros E1 E2 Hn. rewrite FloatAxioms.leb_spec. unfold SFleb.
  destruct (SFcompare_key _ _ _ _ E1 E2) as (c & -> & Hc).
  destruct c; simpl in Hc; done.
Qed.

Lemma eqb_key x y k1 k2 :
  fkey x = Some k1 -> fkey y = Some k2 ->
  (x =? y)%float = true -> k1 = k2.
Proof.
  intros E1 E2. rewrite FloatAxioms.eqb_spec. unfold SFeqb.
  destruct (SFcompare_key _ _ _ _ E1 E2) as (c & -> & Hc).
  destruct c; simpl in Hc; done.
Qed.

Lemma lt_infinity_key x :
  (x <? infinity)%float = true -> exists k, fkey x = Some k.
Proof. intros (k & _ & ? & _)%ltb_key. eauto. Qed.

Lemma zero_lt_eqb_zero b :
  (b =? 0)%float = true -> (0 <? b)%float = false.
Proof.
  intros He. destruct (0 <? b)%float eqn:Hl; [|done].
  apply ltb_key in Hl as (k1 & k2 & E1 & E2 & Hlt).
  pose proof (eqb_key _ _ _ _ E2 E1 He) as ->.
  unfold key_lt in Hlt. lia.
Qed.

(** ** The greedy tour *)

Section GreedyTour.

Context (libm : Libm) (depot : LatLng) (stops : list Stop).

Abbreviation pts := (depot :: map stop_pos stops).

Hypothesis Hgeo : geodesy_ok libm depot stops = true.

Lemma geodesy_pair a b :
  a ∈ pts -> b ∈ pts ->
  exists d, haversine_miles libm a b = Ok d /\ (d <? infinity)%float = true.
Proof using Hgeo.
  intros Ha%list_elem_of_In Hb%list_elem_of_In.
  unfold geodesy_ok in Hgeo. rewrite forallb_forall in Hgeo.
  specialize (Hgeo a Ha). rewrite forallb_forall in Hgeo.
  specialize (Hgeo b Hb). unfold reachable in Hgeo.
  destruct (haversine_miles libm a b); try done. eauto.
Qed.

Lemma stop_in_pts j s : stops !! j = Some s -> stop_pos s ∈ pts.
Proof.
  intros H. apply elem_of_cons. right. apply list_elem_of_fmap.
  exists s. split; [done|]. by eapply list_elem_of_lookup_2.
Qed.

Lemma geodesy_miles a j s :
  a ∈ pts -> stops !! j = Some s ->
  haversine_miles libm a (stop_pos s) = Ok (miles libm a (stop_pos s)) /\
  exists k, fkey (miles libm a (stop_pos s)) = Some k.
Proof using Hgeo.
  intros Ha Hs.
  destruct (geodesy_pair a (stop_pos s) Ha (stop_in_pts _ _ Hs))
    as (d & Hd & Hlt).
  unfold miles. rewrite Hd. split; [done|]. by apply lt_infinity_key.
Qed.


Lemma nearest_inv curr visited :
  curr ∈ pts ->
  forall ss i best_idx best_dist,
    drop i stops = ss ->
    best_inv libm stops curr visited i best_idx best_dist ->
    exists r rd,
      nearest libm visited curr i ss best_idx best_dist = Ok (r, rd) /\
      best_inv libm stops curr visited (length stops) r rd.
Proof using Hgeo.
  intros Hcurr ss. induction ss as [|s ss IH]; intros i bi bd Hdrop Hinv.
  - exists bi, bd. split; [done|].
    assert (length stops <= i)%nat as Hle.
    { apply drop_nil_inv in Hdrop. lia. }
    destruct bi as [b|]; simpl in *.
    + destruct Hinv as (Hb & Hnv & (sb & Hsb & Hbd) & Hall).
      split; [by eapply lookup_lt_Some|]. split; [done|].
      split; [eauto|]. intros j sj Hj Hsj. apply Hall; [lia|done].
    + destruct Hinv as [-> Hall]. split; [done|]. intros j Hj. apply Hall. lia.
  - assert (stops !! i = Some s) as Hi.
    { rewrite <- (Nat.add_0_r i), <- lookup_drop, Hdrop. done. }
    assert (drop (S i) stops = ss) as Hdrop'.
    { replace (S i) with (i + 1)%nat by lia. by rewrite <- drop_drop, Hdrop. }
    simpl. destruct (decide (i ∈ visited)) as [Hv|Hv].
    + apply IH; [done|]. destruct bi as [b|]; simpl in *.
      * destruct Hinv as (Hb & Hnv & Hsb & Hall).
        split; [lia|]. split; [done|]. split; [done|].
        intros j sj Hj Hsj Hjv. apply Hall; [|done..].
        destruct (decide (j = i)) as [->|]; [done|lia].
      * destruct Hinv as [-> Hall]. split; [done|]. intros j Hj.
        destruct (decide (j = i)) as [->|]; [done|apply Hall; lia].
    + destruct (geodesy_miles curr i s Hcurr Hi) as (Hd & kd & Hkd).
      rewrite Hd. simpl.
      destruct (miles libm curr (stop_pos s) <? bd)%float eqn:Hlt.
      * apply IH; [done|]. simpl. split; [lia|]. split; [done|].
        split; [eauto|]. intros j sj Hj Hsj Hjv.
        apply ltb_key in Hlt as (k1 & k2 & E1 & E2 & Hk).
        destruct (decide (j = i)) as [->|Hne].
        { rewrite Hi in Hsj. injection Hsj as <-. split; [lia|].
          destruct (_ <? _)%float eqn:Hirr; [|done].
          apply ltb_key in Hirr as (k3 & k4 & E3 & E4 & Hk').
          rewrite E3 in E4. injection E4 as <-. unfold key_lt in Hk'. lia. }
        destruct (geodesy_miles curr j sj Hcurr Hsj) as (_ & kj & Hkj).
        assert (key_lt k1 kj) as Hkj'.
        { destruct bi as [b|]; simpl in Hinv.
          - destruct Hinv as (Hb & Hnv & Hsb & Hall).
            destruct (Hall j sj ltac:(lia) Hsj Hjv) as [_ Hnlt].
            pose proof (ltb_false_key _ _ _ _ Hkj E2 Hnlt) as Hn.
            unfold key_lt in *. lia.
          - destruct Hinv as [_ Hall]. destruct Hjv. apply Hall. lia. }
        split.
        { intros _. apply ltb_key. eauto 6. }
        destruct (_ <? _)%float eqn:Hrev; [|done].
        apply ltb_key in Hrev as (k3 & k4 & E3 & E4 & Hk').
        rewrite Hkj in E3. rewrite E1 in E4.
        injection E3 as <-. injection E4 as <-.
        unfold key_lt in *. lia.
      * apply IH; [done|]. destruct bi as [b|]; simpl in *.
        -- destruct Hinv as (Hb & Hnv & Hsb & Hall).
           split; [lia|]. split; [done|]. split; [done|].
           intros j sj Hj Hsj Hjv.
           destruct (decide (j = i)) as [->|Hne].
           ++ rewrite Hi in Hsj. injection Hsj as <-. split; [lia|done].
           ++ apply Hall; [lia|done..].
        -- destruct Hinv as [-> _].
           destruct (geodesy_pair curr (stop_pos s) Hcurr (stop_in_pts _ _ Hi))
             as (d & Hd' & Hdlt).
           rewrite Hd' in Hd. injection Hd as ->. congruence.
Qed.

Lemma nearest_chooses curr visited :
  curr ∈ pts ->
  (exists j, (j < length stops)%nat /\ j ∉ visited) ->
  exists b rd,
    nearest libm visited curr 0 stops None infinity = Ok (Some b, rd) /\
    spec_nearest libm stops curr visited b.
Proof using Hgeo.
  intros Hcurr (j0 & Hj0 & Hj0v).
  destruct (nearest_inv curr visited Hcurr stops 0 None infinity)
    as (r & rd & Hr & Hinv); [done|by split; [|lia]|].
  destruct r as [b|]; simpl in Hinv; last first.
  { destruct Hinv as [_ Hall]. by destruct Hj0v; apply Hall. }
  destruct Hinv as (Hb & Hbv & (sb & Hsb & ->) & Hall).
  exists b, (miles libm curr (stop_pos sb)). split; [done|].
  split; [done|]. split; [done|].
  intros j sj sb' Hsj Hsb' Hjv. rewrite Hsb in Hsb'. injection Hsb' as <-.
  destruct (Hall j sj (lookup_lt_Some _ _ _ Hsj) Hsj Hjv) as [Hlt Hnlt].
  destruct (geodesy_miles curr j sj Hcurr Hsj) as (_ & kj & Hkj).
  destruct (geodesy_miles curr b sb Hcurr Hsb) as (_ & kb & Hkb).
  split.
  - eapply leb_key; [done..|]. by eapply ltb_false_key.
  - intros Heq. destruct (decide (b <= j)%nat) as [|Hgt]; [done|].
    pose proof (eqb_key _ _ _ _ Hkj Hkb Heq) as ->.
    apply ltb_key in Hlt as (k1 & k2 & E1 & E2 & Hk); [|lia].
    rewrite Hkb in E1. rewrite Hkj in E2.
    injection E1 as <-. injection E2 as <-.
    unfold key_lt in Hk. lia.
Qed.

Lemma unvisited_exists (visited : gset nat) n :
  (size visited < n)%nat -> exists j, (j < n)%nat /\ j ∉ visited.
Proof.
  intros Hsz.
  destruct (decide (set_seq 0 n ∖ visited = (∅ : gset nat))) as [He|Hne].
  - assert (set_seq 0 n ⊆ visited) as Hsub by set_solver.
    apply subseteq_size in Hsub. rewrite size_set_seq in Hsub. lia.
  - apply set_choose_L in Hne as (j & Hj).
    apply elem_of_difference in Hj as [Hj%elem_of_set_seq Hjv].
    exists j. split; [lia|done].
Qed.

Lemma all_visited (visited : gset nat) n :
  visited ⊆ set_seq 0 n -> (n <= size visited)%nat ->
  forall j, (j < n)%nat -> j ∈ visited.
Proof.
  intros Hsub Hsz j Hj.
  assert (visited = set_seq 0 n) as ->.
  { apply set_subseteq_size_eq; [done|]. by rewrite size_set_seq. }
  apply elem_of_set_seq. lia.
Qed.

Lemma greedy_loop_spec fuel :
  forall visited order curr,
    curr ∈ pts ->
    visited ⊆ set_seq 0 (length stops) ->
    (length stops <= size visited + fuel)%nat ->
    exists rest,
      greedy_loop libm fuel stops visited order curr = Ok (order ++ rest) /\
      spec_tour libm stops curr visited rest.
Proof using Hgeo.
  induction fuel as [|fuel IH]; intros visited order curr Hcurr Hsub Hfuel;
    simpl; destruct (decide (size visited < length stops)%nat) as [Hlt|Hge];
    try lia.
  - exists []. rewrite app_nil_r. split; [done|]. constructor.
    apply all_visited; [done|lia].
  - destruct (nearest_chooses curr visited Hcurr (unvisited_exists _ _ Hlt))
      as (b & rd & Hnear & Hspec).
    rewrite Hnear. simpl.
    destruct Hspec as (Hb & Hbv & Hmin).
    destruct (lookup_lt_is_Some_2 stops b Hb) as [s Hs]. rewrite Hs.
    destruct (IH ({[b]} ∪ visited) (order ++ [b]) (stop_pos s))
      as (rest & Hrest & Htour).
    + by eapply stop_in_pts.
    + apply union_subseteq. split; [|done].
      apply singleton_subseteq_l, elem_of_set_seq. lia.
    + rewrite size_union, size_singleton by set_solver. lia.
    + exists (b :: rest). rewrite Hrest, <- app_assoc. split; [done|].
      by econstructor.
  - exists []. rewrite app_nil_r. split; [done|]. constructor.
    apply all_visited; [done|lia].
Qed.

Lemma spec_tour_elems curr visited rest :
  spec_tour libm stops curr visited rest ->
  NoDup rest /\
  forall j, j ∈ rest <-> (j < length stops)%nat /\ j ∉ visited.
Proof.
  induction 1 as [curr visited Hall|curr visited b s rest Hb Hs _ [IHnd IHel]].
  - split; [constructor|]. intros j. split; [by intros ?%elem_of_nil|].
    intros [Hj Hjv]. destruct Hjv. by apply Hall.
  - destruct Hb as (Hb & Hbv & _). split.
    + constructor; [|done]. rewrite IHel. set_solver.
    + intros j. rewrite elem_of_cons, IHel. split.
      * intros [->|[? ?]]; [done|]. split; [done|set_solver].
      * intros [Hj Hjv]. destruct (decide (j = b)) as [|Hne]; [by left|].
        right. split; [done|set_solver].
Qed.

Lemma greedy_order_spec :
  exists order,
    _greedy_order libm depot stops = Ok order /\
    spec_tour libm stops depot ∅ order /\
    order ≡ₚ seq 0 (length stops).
Proof using Hgeo.
  destruct (greedy_loop_spec (length stops) ∅ [] depot)
    as (order & Hloop & Htour).
  - apply elem_of_cons. by left.
  - set_solver.
  - lia.
  - exists order. split; [done|]. split; [done|].
    destruct (spec_tour_elems _ _ _ Htour) as [Hnd Hel].
    apply NoDup_Permutation; [done|apply NoDup_seq|].
    intros j. rewrite Hel, elem_of_seq. set_solver by lia.
Qed.

End GreedyTour.

(** ** Round-robin buckets *)

Section Buckets.

Lemma fill_buckets_length order :
  forall buckets idx, length (fill_buckets buckets idx order) = length buckets.
Proof.
  induction order as [|x order IH]; intros buckets idx; simpl; [done|].
  by rewrite IH, length_alter.
Qed.

Lemma concat_alter_snoc (x : nat) (buckets : list (list nat)) :
  forall i, (i < length buckets)%nat ->
    concat (alter (fun b => b ++ [x]) i buckets) ≡ₚ x :: concat buckets.
Proof.
  induction buckets as [|b buckets IH]; intros i Hi; simpl in *; [lia|].
  destruct i as [|i]; simpl.
  - rewrite <- app_assoc. simpl. by rewrite <- Permutation_middle.
  - trans (b ++ x :: concat buckets).
    + apply Permutation_app_head, IH. lia.
    + symmetry. apply Permutation_middle.
Qed.

Lemma concat_replicate_nil {A} n : concat (replicate n ([] : list A)) = [].
Proof. by induction n. Qed.

Lemma fill_buckets_perm order :
  forall buckets idx, buckets <> [] ->
    concat (fill_buckets buckets idx order) ≡ₚ concat buckets ++ order.
Proof.
  induction order as [|x order IH]; intros buckets idx Hne; simpl.
  - by rewrite app_nil_r.
  - assert (0 < length buckets)%nat as Hpos.
    { destruct buckets; [done|simpl; lia]. }
    rewrite IH.
    + rewrite concat_alter_snoc by (apply Nat.mod_upper_bound; lia).
      by rewrite <- Permutation_middle.
    + intros Hnil. apply (f_equal length) in Hnil.
      rewrite length_alter in Hnil. simpl in Hnil. lia.
Qed.


Lemma bucket_inv_step K full idx buckets x :
  (0 < K)%nat -> full !! idx = Some x ->
  bucket_inv K full idx buckets ->
  bucket_inv K full (S idx)
    (alter (fun b => b ++ [x]) (idx mod K)%nat buckets).
Proof.
  intros HK Hx [Hlen Hinv]. split; [by rewrite length_alter|].
  pose proof (Nat.div_mod_eq idx K) as Hdm.
  pose proof (Nat.mod_upper_bound idx K ltac:(lia)) as Hmod.
  set (q := (idx / K)%nat) in *. set (r := (idx mod K)%nat) in *.
  intros v b' p Hb'.
  destruct (decide (v = r)) as [->|Hne].
  - rewrite list_lookup_alter_eq in Hb'. simpl in Hb'.
    destruct (buckets !! r) as [b|] eqn:Hb; [|done].
    injection Hb' as <-.
    assert (length b = q) as Hlb.
    { apply Nat.le_antisymm.
      - apply lookup_ge_None. rewrite (Hinv r b q Hb).
        case_decide; [nia|done].
      - destruct q as [|q']; [lia|].
        assert (is_Some (b !! q')) as Hs.
        { rewrite (Hinv r b q' Hb). case_decide; [|nia].
          apply lookup_lt_is_Some. apply lookup_lt_Some in Hx. nia. }
        apply lookup_lt_is_Some in Hs. lia. }
    destruct (Nat.lt_trichotomy p q) as [Hp|[->|Hp]].
    + rewrite lookup_app_l by lia. rewrite (Hinv r b p Hb).
      repeat case_decide; try done; nia.
    + rewrite lookup_app_r by lia. rewrite Hlb, Nat.sub_diag. simpl.
      case_decide; [|nia]. rewrite <- Hx. f_equal. nia.
    + rewrite lookup_app_r by lia.
      destruct (p - length b)%nat as [|d] eqn:Hd; [lia|]. simpl.
      case_decide; [nia|done].
  - rewrite list_lookup_alter_ne in Hb' by done.
    rewrite (Hinv v b' p Hb').
    assert (v < K)%nat as Hv by (rewrite <- Hlen; by eapply lookup_lt_Some).
    assert (p * K + v <> idx)%nat as Hneq.
    { intros Heq. apply Hne.
      assert (r = (p * K + v) mod K)%nat as -> by (subst r; by rewrite Heq).
      rewrite Nat.add_comm, Nat.Div0.mod_add. by rewrite Nat.mod_small. }
    repeat case_decide; try done; lia.
Qed.

Lemma fill_buckets_inv K full :
  (0 < K)%nat ->
  forall order idx buckets,
    drop idx full = order ->
    bucket_inv K full idx buckets ->
    bucket_inv K full (length full) (fill_buckets buckets idx order).
Proof.
  intros HK order. induction order as [|x order IH];
    intros idx buckets Hdrop Hinv; simpl.
  - apply drop_nil_inv in Hdrop. destruct Hinv as [Hlen Hinv].
    split; [done|]. intros v b p Hb. rewrite (Hinv v b p Hb).
    repeat case_decide; try done; try lia.
    apply lookup_ge_None. lia.
  - assert (full !! idx = Some x) as Hx.
    { rewrite <- (Nat.add_0_r idx), <- lookup_drop, Hdrop. done. }
    destruct Hinv as [Hlen Hinv]. rewrite <- Hlen at 1. rewrite Hlen.
    apply IH.
    + replace (S idx) with (idx + 1)%nat by lia.
      by rewrite <- drop_drop, Hdrop.
    + by apply bucket_inv_step.
Qed.

Lemma bucket_inv_init K full : bucket_inv K full 0 (replicate K []).
Proof.
  split; [by rewrite length_replicate|]. intros v b p Hb.
  apply lookup_replicate in Hb as [-> _]. by case_decide; [lia|].
Qed.

Lemma round_robin_spec K order :
  (0 < K)%nat ->
  spec_round_robin K order (fill_buckets (replicate K []) 0 order).
Proof.
  intros HK.
  destruct (fill_buckets_inv K order HK order 0 (replicate K []))
    as [Hlen Hinv]; [done|apply bucket_inv_init|].
  split; [done|]. split.
  - intros k s Hk.
    pose proof (Nat.mod_upper_bound k K ltac:(lia)) as Hmod.
    destruct (lookup_lt_is_Some_2 (fill_buckets (replicate K []) 0 order)
                (k mod K)%nat ltac:(lia)) as [b Hb].
    exists b. split; [done|]. rewrite (Hinv _ b _ Hb).
    pose proof (Nat.div_mod_eq k K) as Hdm.
    replace (k / K * K + k mod K)%nat with k by lia.
    case_decide as Hc; [done|]. apply lookup_lt_Some in Hk. lia.
  - intros v b p s Hb Hp. rewrite (Hinv v b p Hb) in Hp.
    case_decide; [done|discriminate].
Qed.

Lemma round_robin_nonempty K order v b :
  (0 < K)%nat ->
  fill_buckets (replicate K []) 0 order !! v = Some b ->
  b <> [] <-> (v < length order)%nat.
Proof.
  intros HK Hb.
  destruct (fill_buckets_inv K order HK order 0 (replicate K []))
    as [Hlen Hinv]; [done|apply bucket_inv_init|].
  pose proof (Hinv v b 0%nat Hb) as H0. simpl in H0.
  split.
  - intros Hne. destruct b as [|y b]; [done|]. simpl in H0.
    case_decide; [done|discriminate].
  - intros Hv Hnil. subst b. simpl in H0. case_decide; [|lia].
    symmetry in H0. apply lookup_ge_None in H0. lia.
Qed.

Lemma filter_prefix {A} (P : A -> Prop) `{forall x, Decision (P x)}
    (l : list A) :
  forall n, (forall v x, l !! v = Some x -> P x <-> (v < n)%nat) ->
    filter P l = take n l.
Proof.
  induction l as [|a l IH]; intros n Hn; [by destruct n|].
  destruct n as [|n].
  - rewrite filter_cons_False by (rewrite (Hn 0%nat a eq_refl); lia).
    simpl. rewrite (IH 0%nat); [by rewrite take_0|].
    intros v x Hx. rewrite (Hn (S v) x Hx). lia.
  - rewrite filter_cons_True by (rewrite (Hn 0%nat a eq_refl); lia).
    simpl. f_equal. apply IH. intros v x Hx. rewrite (Hn (S v) x Hx). lia.
Qed.

Lemma round_robin_filter K order :
  (0 < K)%nat ->
  filter (fun b => b <> []) (fill_buckets (replicate K []) 0 order)
  = take (length order) (fill_buckets (replicate K []) 0 order).
Proof.
  intros HK. apply filter_prefix. intros v b Hb.
  exact (round_robin_nonempty K order v b HK Hb).
Qed.

Lemma buckets_in_range n K order :
  (0 < K)%nat -> order ≡ₚ seq 0 n ->
  Forall (Forall (fun idx => idx < n)%nat)
    (fill_buckets (replicate K []) 0 order).
Proof.
  intros HK Hperm.
  assert (replicate K ([] : list nat) <> []) as Hne by (by destruct K; [lia|]).
  pose proof (fill_buckets_perm order (replicate K []) 0 Hne) as Hp.
  rewrite concat_replicate_nil in Hp. simpl in Hp.
  apply Forall_forall. intros b Hb. apply Forall_forall. intros idx Hidx.
  assert (idx ∈ seq 0 n) as Hin.
  { rewrite <- Hperm, <- Hp. apply list_elem_of_In, in_concat.
    exists b. split; by apply list_elem_of_In. }
  apply elem_of_seq in Hin. lia.
Qed.

End Buckets.

(** ** Routes of the buckets *)

Lemma visits_seq (stops : list Stop) :
  visits stops (seq 0 (length stops)) = map visit_of stops.
Proof.
  unfold visits.
  enough (forall pre, omap (fun idx => visit_of <$> (pre ++ stops) !! idx)
            (seq (length pre) (length stops)) = map visit_of stops) as H
    by apply (H []).
  induction stops as [|s stops IH]; intros pre; simpl; [done|].
  rewrite list_lookup_middle by done. simpl. f_equal.
  specialize (IH (pre ++ [s])). rewrite length_app, Nat.add_1_r in IH.
  rewrite <- IH. by rewrite <- app_assoc.
Qed.

Lemma visits_concat (stops : list Stop) (buckets : list (list nat)) :
  concat (routes_of stops buckets) = visits stops (concat buckets).
Proof.
  unfold routes_of, visits.
  induction buckets as [|b buckets IH]; simpl; [done|].
  rewrite omap_app, <- IH. destruct b as [|i b].
  - by rewrite filter_cons_False by naive_solver.
  - by rewrite filter_cons_True by done.
Qed.

Lemma visits_nonempty (stops : list Stop) (b : list nat) :
  Forall (fun idx => idx < length stops)%nat b -> b <> [] ->
  visits stops b <> [].
Proof.
  intros Hb Hne. destruct b as [|i b]; [done|].
  apply Forall_cons in Hb as [Hi _].
  destruct (lookup_lt_is_Some_2 stops i Hi) as [s Hs].
  unfold visits. simpl. by rewrite Hs.
Qed.

Section Walks.

Context (libm : Libm) (depot : LatLng) (stops : list Stop).

Abbreviation pts := (depot :: map stop_pos stops).

Hypothesis Hgeo : geodesy_ok libm depot stops = true.

Lemma depot_in_pts : depot ∈ pts.
Proof. apply elem_of_cons. by left. Qed.

Lemma walk_bucket_spec b :
  Forall (fun idx => idx < length stops)%nat b ->
  forall curr vehicle total,
    curr ∈ pts ->
    exists curr' total',
      walk_bucket libm stops b curr vehicle total
      = Ok (curr', vehicle ++ visits stops b, total') /\
      curr' ∈ pts /\
      (total' + miles libm curr' depot)%float
      = fold_left (add_leg libm)
          (legs curr (omap (fun idx => stop_pos <$> stops !! idx) b) depot)
          total.
Proof using Hgeo.
  induction 1 as [|idx b Hidx _ IH]; intros curr vehicle total Hcurr; simpl.
  - exists curr, total. by rewrite app_nil_r.
  - destruct (lookup_lt_is_Some_2 stops idx Hidx) as [s Hs].
    rewrite Hs. simpl.
    destruct (geodesy_miles libm depot stops Hgeo curr idx s Hcurr Hs)
      as [Hd _].
    rewrite Hd. simpl.
    destruct (IH (stop_pos s) (vehicle ++ [visit_of s])
                (total + miles libm curr (stop_pos s))%float)
      as (curr' & total' & Hw & Hc & Ht).
    { by eapply stop_in_pts. }
    exists curr', total'. rewrite Hw, <- app_assoc. simpl.
    split; [done|split; [done|exact Ht]].
Qed.

Lemma walk_buckets_spec buckets :
  Forall (Forall (fun idx => idx < length stops)%nat) buckets ->
  forall routes total,
    walk_buckets libm depot stops buckets routes total
    = Ok (routes ++ routes_of stops buckets,
          fold_left (add_leg libm)
            (concat (map (legs_of depot stops) buckets)) total).
Proof using Hgeo.
  induction 1 as [|b buckets Hb _ IH]; intros routes total; simpl.
  - by rewrite app_nil_r.
  - destruct (walk_bucket_spec b Hb depot [] total depot_in_pts)
      as (curr' & total' & Hw & Hc & Ht).
    rewrite Hw. simpl.
    destruct (geodesy_pair libm depot stops Hgeo curr' depot Hc depot_in_pts)
      as (d & Hd & _).
    rewrite Hd. simpl.
    assert (d = miles libm curr' depot) as -> by (unfold miles; by rewrite Hd).
    rewrite Ht, IH, fold_left_app. unfold legs_of at 2. f_equal. f_equal.
    unfold routes_of. destruct b as [|i b].
    + rewrite filter_cons_False by naive_solver. simpl. done.
    + rewrite filter_cons_True by done.
      pose proof (visits_nonempty stops (i :: b) Hb ltac:(done)) as Hne.
      destruct (visits stops (i :: b)) eqn:Hv; [done|].
      rewrite map_cons, Hv, <- app_assoc. done.
Qed.

Lemma baseline_walk_ok ss :
  ss ⊆ stops ->
  forall curr baseline,
    curr ∈ pts ->
    exists curr' baseline',
      baseline_walk libm ss curr baseline = Ok (curr', baseline') /\
      curr' ∈ pts.
Proof using Hgeo.
  induction ss as [|s ss IH]; intros Hsub curr baseline Hcurr; simpl.
  - eauto.
  - assert (s ∈ stops) as Hs by (apply Hsub; by left).
    apply list_elem_of_lookup in Hs as [j Hj].
    destruct (geodesy_miles libm depot stops Hgeo curr j s Hcurr Hj)
      as [Hd _].
    rewrite Hd. simpl. apply IH.
    + intros x Hx. apply Hsub. by right.
    + by eapply stop_in_pts.
Qed.

Lemma baseline_of_ok :
  exists baseline_miles, baseline_of libm depot stops = Ok baseline_miles.
Proof using Hgeo.
  unfold baseline_of.
  destruct (baseline_walk_ok stops ltac:(done) depot 0%float depot_in_pts)
    as (curr' & baseline' & Hw & Hc).
  rewrite Hw. simpl.
  destruct (geodesy_pair libm depot stops Hgeo curr' depot Hc depot_in_pts)
    as (d & Hd & _).
  rewrite Hd. simpl. eauto.
Qed.

(** The greedy router on a request with good geodesy: the tour, its
    buckets, and the routes and the total read off the buckets. *)
Lemma greedy_router_spec vehicle_count :
  exists order buckets,
    _greedy_order libm depot stops = Ok order /\
    spec_tour libm stops depot ∅ order /\
    order ≡ₚ seq 0 (length stops) /\
    buckets
    = fill_buckets (replicate (Z.to_nat (Z.max 1 vehicle_count)) []) 0 order /\
    greedy_buckets libm depot stops vehicle_count = Ok buckets /\
    greedy_router libm depot stops vehicle_count
    = Ok (routes_of stops buckets,
          PyFloat.round2 (raw_miles libm depot stops buckets)).
Proof using Hgeo.
  destruct (greedy_order_spec libm depot stops Hgeo)
    as (order & Horder & Htour & Hperm).
  set (K := Z.to_nat (Z.max 1 vehicle_count)).
  exists order, (fill_buckets (replicate K []) 0 order).
  assert (greedy_buckets libm depot stops vehicle_count
          = Ok (fill_buckets (replicate K []) 0 order)) as Hb.
  { unfold greedy_buckets. by rewrite Horder. }
  repeat (split; [done|]).
  unfold greedy_router. rewrite Hb. simpl.
  rewrite walk_buckets_spec; [done|].
  apply buckets_in_range; [lia|done].
Qed.

End Walks.

(** ** What runs to completion *)


Lemma ends_bind {A B} (m : result A) (f : A -> result B) :
  ends m -> (forall a, m = Ok a -> ends (f a)) -> ends (m ≫= f).
Proof. destruct m; simpl; intros Hm Hf; [by apply Hf|done|done]. Qed.

Lemma ends_not_ok {A} (m : result A) :
  ends m -> (forall a, m <> Ok a) -> raises m.
Proof. destruct m as [a|e|]; intros He Hn; [by destruct (Hn a)|by exists e|done]. Qed.

Lemma raises_bind_l {A B} (m : result A) (f : A -> result B) :
  raises m -> raises (m ≫= f).
Proof. intros [e ->]. by exists e. Qed.

Lemma raises_bind_r {A B} (m : result A) (f : A -> result B) :
  ends m -> (forall a, m = Ok a -> raises (f a)) -> raises (m ≫= f).
Proof.
  destruct m as [a|e|]; simpl; intros Hm Hf; [by apply Hf|by exists e|done].
Qed.

Lemma ends_math_1 f x : ends (math.math_1 f x).
Proof. unfold math.math_1. repeat case_match; done. Qed.

Lemma ends_pow2 lm x : ends (math.pow2 lm x).
Proof. unfold math.pow2. repeat case_match; done. Qed.

Lemma ends_haversine lm a b : ends (haversine_miles lm a b).
Proof.
  unfold haversine_miles, math.sin, math.cos, math.asin, math.sqrt.
  repeat (apply ends_bind; [first [apply ends_math_1|apply ends_pow2]|intros ? _]).
  done.
Qed.

Lemma ends_round x : ends (PyFloat.round x).
Proof. unfold PyFloat.round. by case_match. Qed.

Lemma ends_int s : ends (Py.int s).
Proof. unfold Py.int. repeat case_match; done. Qed.

Lemma ends_parse_hhmm s : ends (parse_hhmm s).
Proof.
  unfold parse_hhmm. repeat case_match; try done.
  repeat (apply ends_bind; [apply ends_int|intros ? _]). done.
Qed.

Lemma ends_window a b : ends (window a b).
Proof.
  unfold window.
  repeat (apply ends_bind; [apply ends_parse_hhmm|intros ? _]). done.
Qed.

Lemma ends_mapM {A B} (f : A -> result B) l :
  (forall a, ends (f a)) -> ends (mapM f l).
Proof.
  intros Hf. induction l as [|a l IH]; simpl; [done|].
  apply ends_bind; [done|intros ? _]. by apply ends_bind; [|intros ? _].
Qed.

Lemma ends_dist_matrix lm points : ends (dist_matrix lm points).
Proof.
  apply ends_mapM. intros [i pi]. apply ends_mapM. intros [j pj].
  unfold dist_cell. case_decide; [done|].
  apply ends_bind; [apply ends_haversine|intros ? _; apply ends_round].
Qed.

(** ** Lists in the result monad *)

Lemma mapM_Ok {A B} (f : A -> result B) l bs :
  mapM f l = Ok bs ->
  length bs = length l /\
  forall i a, l !! i = Some a -> exists b, bs !! i = Some b /\ f a = Ok b.
Proof.
  revert bs. induction l as [|a l IH]; intros bs; simpl.
  - intros [= <-]. split; [done|]. by intros i a' ?.
  - intros (b & Hb & (bs' & Hbs' & [= <-])%bind_Ok)%bind_Ok.
    destruct (IH bs' Hbs') as [Hlen Hall]. split; [simpl; lia|].
    intros [|i] a'; simpl; [intros [= <-]; eauto|apply Hall].
Qed.

Lemma mapM_raises {A B} (f : A -> result B) l a :
  (forall a, ends (f a)) -> a ∈ l -> raises (f a) -> raises (mapM f l).
Proof.
  intros Hf Hin [e He]. apply ends_not_ok; [by apply ends_mapM|].
  intros bs Hbs. apply list_elem_of_lookup in Hin as [i Hi].
  destruct (mapM_Ok f l bs Hbs) as [_ Hall].
  destruct (Hall i a Hi) as (b & _ & Hb). congruence.
Qed.

Lemma dist_matrix_cells lm points m :
  dist_matrix lm points = Ok m ->
  length m = length points /\
  forall i j pi pj, points !! i = Some pi -> points !! j = Some pj ->
    cell m i j = dist_cell lm i j pi pj /\ is_ok (cell m i j) = true.
Proof.
  intros Hm. apply mapM_Ok in Hm as [Hlen Hrows].
  rewrite length_imap in Hlen. split; [done|].
  intros i j pi pj Hi Hj.
  destruct (Hrows i (i, pi)) as (row & Hrow & Hr).
  { by rewrite list_lookup_imap, Hi. }
  apply mapM_Ok in Hr as [_ Hcells].
  destruct (Hcells j (j, pj)) as (c & Hc & Hcell).
  { by rewrite list_lookup_imap, Hj. }
  unfold cell. rewrite Hrow, Hc. by rewrite Hcell.
Qed.

(** ** The constrained router *)

Lemma window_raises a b :
  raises (parse_hhmm a) \/ raises (parse_hhmm b) -> raises (window a b).
Proof.
  intros [Ha|Hb]; unfold window.
  - by apply raises_bind_l.
  - apply raises_bind_r; [apply ends_parse_hhmm|intros ? _].
    by apply raises_bind_l.
Qed.

Lemma window_unconstrained a b :
  parse_hhmm a = Ok None -> parse_hhmm b = Ok None ->
  window a b = Ok (0, 1440)%Z.
Proof. unfold window. by intros -> ->. Qed.

(** What the model built for the solver holds. *)
Lemma build_model_returns libm depot stops vehicle_count vehicle_capacity
    depot_tw_start depot_tw_end model :
  build_model libm depot stops vehicle_count vehicle_capacity depot_tw_start
    depot_tw_end = Ok model ->
  dist_matrix libm (depot_point depot depot_tw_start depot_tw_end :: stops)
  = Ok (rm_arc_cost model) /\
  rm_transit_minutes model = travel_time_callback (rm_arc_cost model) /\
  rm_vehicles model = vehicle_count /\
  rm_capacities model
  = replicate (Z.to_nat vehicle_count) (Z.max 1 vehicle_capacity) /\
  rm_demands model = 0 :: map (fun s => Z.max 0 (stop_demand s)) stops.
Proof.
  unfold build_model.
  intros (dist & Hd & (wd & _ & (ws & _ & [= <-])%bind_Ok)%bind_Ok)%bind_Ok.
  done.
Qed.

(** The windows set node after node are the windows of the model. *)
Lemma set_windows_Ok solver stops :
  forall i ws,
    set_windows solver i stops = Ok ws ->
    mapM (fun s => window (stop_tw_start s) (stop_tw_end s)) stops = Ok ws.
Proof.
  induction stops as [|s stops IH]; intros i ws; simpl; [done|].
  intros (w & Hw & (u & _ & (ws' & Hws & [= <-])%bind_Ok)%bind_Ok)%bind_Ok.
  rewrite Hw. simpl. by rewrite (IH _ _ Hws).
Qed.

(** Every way the constrained router returns: the library was set up,
    every window was parsed and set, and the search was given the model. *)
Lemma constrained_router_returns libm solver depot stops vehicle_count
    vehicle_capacity depot_tw_start depot_tw_end res :
  constrained_router libm solver depot stops vehicle_count vehicle_capacity
    depot_tw_start depot_tw_end = Ok res ->
  exists model,
    build_model libm depot stops vehicle_count vehicle_capacity
      depot_tw_start depot_tw_end = Ok model /\
    (solution ← SolveWithParameters solver model;
     match solution with
     | Some solution =>
         '(routes, total_mmiles) ←
           read_solution
             (depot_point depot depot_tw_start depot_tw_end :: stops)
             (rm_arc_cost model) solution 0 (Z.to_nat vehicle_count) [] 0;
         f ← PyFloat.of_int total_mmiles;
         Ok (Some (routes, PyFloat.round2 (f / 1000.0)%float))
     | None => Ok None
     end) = Ok res.
Proof.
  unfold constrained_router.
  intros (dist & Hd & (u & _ & (wd & Hwd & (u' & _ & (ws & Hws & Hrest)
    %bind_Ok)%bind_Ok)%bind_Ok)%bind_Ok)%bind_Ok.
  exists (routing_model stops vehicle_count vehicle_capacity dist (wd :: ws)).
  split; [|done].
  unfold build_model. rewrite Hd. simpl. rewrite Hwd. simpl.
  by rewrite (set_windows_Ok _ _ _ _ Hws).
Qed.

(** With a library whose calls come back, a malformed window of a stop
    makes the loop over the windows raise. *)
Lemma set_windows_raises solver stops s :
  (forall node w, ends (SetRange solver node w)) ->
  s ∈ stops ->
  raises (window (stop_tw_start s) (stop_tw_end s)) ->
  forall i, raises (set_windows solver i stops).
Proof.
  intros Hset Hs Hw. induction stops as [|s' stops IH]; intros i.
  - by apply elem_of_nil in Hs.
  - simpl. apply elem_of_cons in Hs as [<-|Hs]; [by apply raises_bind_l|].
    apply raises_bind_r; [apply ends_window|intros w _].
    apply raises_bind_r; [apply Hset|intros u _].
    apply raises_bind_l. by apply IH.
Qed.

(** ** The cost the constrained router reports *)

Lemma mapM_app {A B} (f : A -> result B) l1 l2 bs1 bs2 :
  mapM f l1 = Ok bs1 -> mapM f l2 = Ok bs2 ->
  mapM f (l1 ++ l2) = Ok (bs1 ++ bs2).
Proof.
  revert bs1. induction l1 as [|a l1 IH]; intros bs1; simpl.
  - by intros [= <-] ->.
  - intros (b & Hb & (bs & Hbs & [= <-])%bind_Ok)%bind_Ok H2.
    rewrite Hb. simpl. by rewrite (IH bs Hbs H2).
Qed.

Lemma foldr_add_app (l1 l2 : list Z) :
  foldr Z.add 0 (l1 ++ l2) = foldr Z.add 0 l1 + foldr Z.add 0 l2.
Proof. induction l1 as [|x l1 IH]; simpl; [done|]. rewrite IH. lia. Qed.

(** One vehicle: the visits are the stops of its path, and the cost added,
    with the arc back to the depot, is the sum of the cells of its arcs. *)
Lemma walk_route_arcs points dist nodes :
  forall prev vr tot prev' vr' tot' c,
    walk_route points dist nodes prev vr tot = Ok (prev', vr', tot') ->
    cell dist prev' 0 = Ok c ->
    vr' = vr ++ path_visits points (filter (fun node => node <> 0%nat) nodes)
    /\
    exists cells,
      mapM (fun arc => cell dist arc.1 arc.2)
        (arcs_from prev (filter (fun node => node <> 0%nat) nodes))
      = Ok cells /\
      tot' + c = tot + foldr Z.add 0 cells.
Proof.
  induction nodes as [|node nodes IH];
    intros prev vr tot prev' vr' tot' c; simpl.
  - intros [= <- <- <-] Hc. split; [by rewrite app_nil_r|].
    exists [c]. simpl. rewrite Hc. simpl. split; [done|lia].
  - case_decide as Hnode.
    + rewrite filter_cons_False by (intros ?; done). apply IH.
    + rewrite filter_cons_True by done.
      destruct (points !! node) as [p|] eqn:Hp; [|done].
      intros (c0 & Hc0 & Hw)%bind_Ok Hc.
      destruct (IH _ _ _ _ _ _ _ Hw Hc) as (-> & cells & Hcells & Hsum).
      split.
      * unfold path_visits. simpl. rewrite Hp. simpl.
        by rewrite <- app_assoc.
      * exists (c0 :: cells). simpl. rewrite Hc0. simpl. rewrite Hcells.
        simpl. split; [done|lia].
Qed.

(** All vehicles: the routes are those of the assignment, and the total is
    the sum of the cells of its arcs. *)
Lemma read_solution_arcs points dist solution k :
  forall v routes tot routes' tot',
    read_solution points dist solution v k routes tot = Ok (routes', tot') ->
    routes'
    = routes
      ++ filter (fun route => 0 < length route)%nat
           (map (fun v => path_visits points (solution_path solution v))
              (seq v k)) /\
    exists cells,
      mapM (fun arc => cell dist arc.1 arc.2)
        (concat (map (fun v => arcs_from 0 (solution_path solution v))
                   (seq v k)))
      = Ok cells /\
      tot' = tot + foldr Z.add 0 cells.
Proof.
  induction k as [|k IH]; intros v routes tot routes' tot'; simpl.
  - intros [= <- <-]. split; [by rewrite app_nil_r|].
    exists []. split; [done|]. simpl. lia.
  - intros ([[prev vr] t] & Hw & (c & Hc & Hrest)%bind_Ok)%bind_Ok.
    destruct (walk_route_arcs _ _ _ _ _ _ _ _ _ _ Hw Hc)
      as (Hvr & cells & Hcells & Hsum).
    simpl in Hvr. fold (solution_path solution v) in Hvr, Hcells.
    destruct (IH _ _ _ _ _ Hrest) as (-> & cells' & Hcells' & ->).
    split.
    + subst vr. destruct (path_visits points (solution_path solution v))
        as [|x route] eqn:Hroute.
      * rewrite filter_cons_False by (simpl; lia). done.
      * rewrite filter_cons_True by (simpl; lia). by rewrite <- app_assoc.
    + exists (cells ++ cells'). split; [by apply mapM_app|].
      rewrite foldr_add_app. lia.
Qed.

(** The routes read out of a solution are never empty. *)
Lemma read_solution_nonempty points dist solution k :
  forall v routes total routes' total',
    read_solution points dist solution v k routes total = Ok (routes', total') ->
    Forall (fun route => route <> []) routes ->
    Forall (fun route => route <> []) routes'.
Proof.
  induction k as [|k IH]; intros v routes total routes' total'; simpl.
  - by intros [= <- <-].
  - intros ([[prev vr] t] & Hw & (c & Hc & Hrest)%bind_Ok)%bind_Ok Hall.
    apply IH in Hrest; [done|]. destruct vr; [done|].
    apply Forall_app. split; [done|]. by repeat constructor.
Qed.

(** ** The greedy router, whenever it returns *)

Section GreedyReturns.

Context (libm : Libm) (depot : LatLng) (stops : list Stop).

Lemma ends_nearest visited curr ss :
  forall i bi bd, ends (nearest libm visited curr i ss bi bd).
Proof.
  induction ss as [|s ss IH]; intros i bi bd; simpl; [done|].
  case_decide; [apply IH|].
  apply ends_bind; [apply ends_haversine|intros d _].
  case_match; apply IH.
Qed.

Lemma nearest_fresh visited curr ss :
  forall i bi bd r rd,
    nearest libm visited curr i ss bi bd = Ok (r, rd) ->
    r = bi \/
    exists b, r = Some b /\ (b ∉ visited) /\ (i <= b < i + length ss)%nat.
Proof.
  induction ss as [|s ss IH]; intros i bi bd r rd; simpl.
  - intros [= <- <-]. by left.
  - case_decide as Hv.
    + intros [->|(b & -> & ? & ?)]%IH; [by left|right].
      exists b. repeat split; [done|lia..].
    + intros (d & Hd & Hn)%bind_Ok. case_match.
      * apply IH in Hn as [->|(b & -> & ? & ?)]; right.
        -- exists i. repeat split; [done|lia..].
        -- exists b. repeat split; [done|lia..].
      * apply IH in Hn as [->|(b & -> & ? & ?)]; [by left|right].
        exists b. repeat split; [done|lia..].
Qed.

(** The loop never reaches the bound of its model. *)
Lemma greedy_loop_ends fuel :
  forall visited order curr,
    (length stops <= size visited + fuel)%nat ->
    ends (greedy_loop libm fuel stops visited order curr).
Proof.
  induction fuel as [|fuel IH]; intros visited order curr Hfuel; simpl;
    case_decide; try done; try lia.
  apply ends_bind; [apply ends_nearest|].
  intros [[b|] rd] Hn; [|done].
  destruct (stops !! b) as [s|]; [|done].
  apply nearest_fresh in Hn as [[=]|(b' & [= <-] & Hb & _)].
  apply IH. rewrite size_union, size_singleton by set_solver. lia.
Qed.

Lemma greedy_order_ends : ends (_greedy_order libm depot stops).
Proof. apply greedy_loop_ends. lia. Qed.

Lemma greedy_loop_returns fuel :
  forall visited order curr res,
    visited ⊆ set_seq 0 (length stops) ->
    greedy_loop libm fuel stops visited order curr = Ok res ->
    exists rest,
      res = order ++ rest /\ NoDup rest /\
      forall j, j ∈ rest <-> (j < length stops)%nat /\ j ∉ visited.
Proof.
  induction fuel as [|fuel IH]; intros visited order curr res Hsub; simpl;
    case_decide as Hsz; try done.
  - intros [= <-]. exists []. rewrite app_nil_r. split; [done|].
    split; [constructor|]. intros j. split; [by intros ?%elem_of_nil|].
    intros [Hj Hjv]. destruct Hjv. apply (all_visited _ _ Hsub); [lia|done].
  - intros ([[b|] rd] & Hn & Hrest)%bind_Ok; [|done].
    destruct (stops !! b) as [s|] eqn:Hs; [|done].
    apply nearest_fresh in Hn as [[=]|(b' & [= <-] & Hb & _)].
    apply lookup_lt_Some in Hs.
    apply IH in Hrest as (rest & -> & Hnd & Hel).
    + exists (b :: rest). rewrite <- app_assoc. split; [done|]. split.
      * constructor; [|done]. rewrite Hel. set_solver.
      * intros j. rewrite elem_of_cons, Hel. split.
        -- intros [->|[? ?]]; [done|]. split; [done|set_solver].
        -- intros [Hj Hjv]. destruct (decide (j = b)) as [|Hne]; [by left|].
           right. split; [done|set_solver].
    + apply union_subseteq. split; [|done].
      apply singleton_subseteq_l, elem_of_set_seq. lia.
  - intros [= <-]. exists []. rewrite app_nil_r. split; [done|].
    split; [constructor|]. intros j. split; [by intros ?%elem_of_nil|].
    intros [Hj Hjv]. destruct Hjv. apply (all_visited _ _ Hsub); [lia|done].
Qed.

Lemma greedy_order_returns order :
  _greedy_order libm depot stops = Ok order ->
  order ≡ₚ seq 0 (length stops).
Proof.
  intros (rest & -> & Hnd & Hel)%greedy_loop_returns; [|set_solver].
  simpl. apply NoDup_Permutation; [done|apply NoDup_seq|].
  intros j. rewrite Hel, elem_of_seq. set_solver by lia.
Qed.

Lemma walk_bucket_returns b :
  forall curr vehicle total curr' vehicle' total',
    walk_bucket libm stops b curr vehicle total = Ok (curr', vehicle', total') ->
    vehicle' = vehicle ++ visits stops b /\
    Forall (fun idx => idx < length stops)%nat b.
Proof.
  induction b as [|idx b IH]; intros curr vehicle total curr' vehicle' total';
    simpl.
  - intros [= <- <- <-]. by rewrite app_nil_r.
  - destruct (stops !! idx) as [s|] eqn:Hs; [|done].
    intros (d & Hd & [-> Hb]%IH)%bind_Ok. split.
    + by rewrite <- app_assoc.
    + constructor; [by eapply lookup_lt_Some|done].
Qed.

Lemma walk_buckets_returns buckets :
  forall routes total routes' total',
    walk_buckets libm depot stops buckets routes total = Ok (routes', total') ->
    routes' = routes ++ routes_of stops buckets.
Proof.
  induction buckets as [|b buckets IH]; intros routes total routes' total';
    simpl.
  - intros [= <- <-]. by rewrite app_nil_r.
  - intros ([[curr' vehicle'] t'] & Hw & (d & Hd & Hrest)%bind_Ok)%bind_Ok.
    apply walk_bucket_returns in Hw as [-> Hb]. simpl in Hrest.
    apply IH in Hrest as ->. unfold routes_of. destruct b as [|i b].
    + rewrite filter_cons_False by naive_solver. done.
    + rewrite filter_cons_True by done.
      pose proof (visits_nonempty stops (i :: b) Hb ltac:(done)) as Hne.
      destruct (visits stops (i :: b)) eqn:Hv; [done|].
      rewrite map_cons, Hv, <- app_assoc. done.
Qed.

(** Whenever the greedy router returns, its routes are those of the
    round-robin buckets of one tour through all the stops. *)
Lemma greedy_router_returns vehicle_count routes total :
  greedy_router libm depot stops vehicle_count = Ok (routes, total) ->
  exists order,
    _greedy_order libm depot stops = Ok order /\
    order ≡ₚ seq 0 (length stops) /\
    routes
    = routes_of stops
        (fill_buckets (replicate (Z.to_nat (Z.max 1 vehicle_count)) []) 0
           order).
Proof.
  unfold greedy_router, greedy_buckets.
  intros (buckets & (order & Ho & [= <-])%bind_Ok
          & ([routes' total'] & Hw & [= <- <-])%bind_Ok)%bind_Ok.
  exists order. split; [done|]. split; [by apply greedy_order_returns|].
  by apply walk_buckets_returns in Hw as ->.
Qed.

End GreedyReturns.

(** ** The orchestrator *)


Section Orchestrator.

Context (libm : Libm).

(** Every way [optimize_routes] returns. *)
Lemma optimize_routes_returns ortools depot stops vehicle_count
    vehicle_capacity depot_tw_start depot_tw_end r :
  optimize_routes libm ortools depot stops vehicle_count vehicle_capacity
    depot_tw_start depot_tw_end = Ok r ->
  (stops = [] /\ r = empty_result) \/
  (stops <> [] /\
   baseline_of libm depot stops = Ok (baseline_miles r) /\
   savings_pct r = savings_of (baseline_miles r) (total_miles r) /\
   ((engine r = "ortools" /\ note r = None /\
     exists solver, ortools = Some solver /\
       constrained_router libm solver depot stops vehicle_count
         vehicle_capacity depot_tw_start depot_tw_end
       = Ok (Some (routes r, total_miles r))) \/
    (engine r = "greedy-fallback" /\
     fallback_runs libm ortools depot stops vehicle_count vehicle_capacity
       depot_tw_start depot_tw_end /\
     greedy_router libm depot stops vehicle_count
     = Ok (routes r, total_miles r) /\
     note r = Some (match ortools with
                    | Some _ => note_infeasible
                    | None => note_install
                    end)))).
Proof.
  unfold optimize_routes. case_decide as Hlen.
  { intros [= <-]. left. split; [|done]. by apply length_zero_iff_nil. }
  assert (stops <> []) as Hne by (by intros ->).
  intros ([[[eng nt] rts] tot] & Hfirst & Hrest)%bind_Ok. right.
  split; [done|].
  apply bind_Ok in Hrest as ([[nt' rts'] tot'] & Hsecond & Hlast).
  apply bind_Ok in Hlast as (b & Hb & [= <-]). simpl.
  split; [done|]. split; [done|].
  destruct ortools as [solver|].
  - apply bind_Ok in Hfirst as (solved & Hsolved & Hcase).
    destruct solved as [[rts0 tot0]|].
    + injection Hcase as <- <- <- <-. simpl in Hsecond.
      injection Hsecond as <- <- <-. left. eauto.
    + injection Hcase as <- <- <- <-. simpl in Hsecond.
      apply bind_Ok in Hsecond as ([rts1 tot1] & Hg & [= <- <- <-]).
      right. done.
  - injection Hfirst as <- <- <- <-. simpl in Hsecond.
    apply bind_Ok in Hsecond as ([rts1 tot1] & Hg & [= <- <- <-]).
    right. done.
Qed.

(** The greedy fallback on a request with good geodesy. *)
Lemma optimize_routes_fallback ortools depot stops vehicle_count
    vehicle_capacity depot_tw_start depot_tw_end :
  stops <> [] ->
  geodesy_ok libm depot stops = true ->
  fallback_runs libm ortools depot stops vehicle_count vehicle_capacity
    depot_tw_start depot_tw_end ->
  exists order buckets r,
    _greedy_order libm depot stops = Ok order /\
    spec_tour libm stops depot ∅ order /\
    order ≡ₚ seq 0 (length stops) /\
    buckets
    = fill_buckets (replicate (Z.to_nat (Z.max 1 vehicle_count)) []) 0 order /\
    optimize_routes libm ortools depot stops vehicle_count vehicle_capacity
      depot_tw_start depot_tw_end = Ok r /\
    engine r = "greedy-fallback" /\
    routes r = routes_of stops buckets /\
    total_miles r = PyFloat.round2 (raw_miles libm depot stops buckets).
Proof.
  intros Hne Hgeo Hfb.
  destruct (greedy_router_spec libm depot stops Hgeo vehicle_count)
    as (order & buckets & Ho & Htour & Hperm & Hbk & _ & Hg).
  destruct (baseline_of_ok libm depot stops Hgeo) as (b & Hb).
  exists order, buckets.
  unfold optimize_routes. case_decide as Hlen.
  { by apply length_zero_iff_nil in Hlen. }
  destruct ortools as [solver|]; simpl in Hfb.
  - rewrite Hfb. simpl. rewrite Hg. simpl. rewrite Hb. simpl.
    eexists. repeat (split; [done|]). done.
  - simpl. rewrite Hg. simpl. rewrite Hb. simpl.
    eexists. repeat (split; [done|]). done.
Qed.

End Orchestrator.

(** * The claims *)

(** ** C3 *)

(** C3. For the empty stop list, and any depot, vehicle count, capacity,
    depot window and solver availability, [optimize_routes] returns, without
    error, the result with [engine = "none"], [routes = []],
    [total_miles = 0.0], [baseline_miles = 0.0] and [savings_pct = 0.0]. *)
Theorem empty_stop_list_result (libm : Libm) (ortools : option ORTools)
    (depot : LatLng) (vehicle_count vehicle_capacity : Z)
    (depot_tw_start depot_tw_end : option string) :
  exists r,
    optimize_routes libm ortools depot [] vehicle_count vehicle_capacity
      depot_tw_start depot_tw_end = Ok r /\
    engine r = "none" /\ routes r = [] /\ total_miles r = 0%float /\
    baseline_miles r = 0%float /\ savings_pct r = 0%float.
Proof. exists empty_result. by repeat split. Qed.

(** ** C7 *)

(** C7. The time-window codec: [parse("08:00") = 480]; [parse(None)],
    [parse("")] and [parse("nan")] are all [None]; [parse("8:5") = 485]. *)
Theorem parse_hhmm_examples :
  parse_hhmm (Some "08:00") = Ok (Some 480) /\
  parse_hhmm None = Ok None /\
  parse_hhmm (Some EmptyString) = Ok None /\
  parse_hhmm (Some "nan") = Ok None /\
  parse_hhmm (Some "8:5") = Ok (Some 485).
Proof. by repeat split. Qed.

(** ** C1 *)

(** C1, as stated, fails: when the solver produces the routes, the engine
    field is ["ortools"], which is none of [constrained], [greedy-fallback]
    and [none]. *)
Lemma engine_constrained_counterexample :
  exists r,
    optimize_routes Sample.libm
      (Some (Sample.solver_answering (Some [[0; 1; 2]%nat])))
      Sample.depot [Sample.stop_A; Sample.stop_B] 1 10 None None = Ok r /\
    routes r = [[visit_of Sample.stop_A; visit_of Sample.stop_B]] /\
    engine r = "ortools" /\
    engine r <> "constrained" /\ engine r <> "greedy-fallback" /\
    engine r <> "none".
Proof. eexists. split; [vm_compute; reflexivity|]. by repeat split. Qed.

(** C1, amended. The engine field of every result is one of exactly
    ["ortools"], ["greedy-fallback"] and ["none"]: ["none"] for an empty
    stop list, ["ortools"] whenever the constrained solver produced the
    routes, and ["greedy-fallback"] whenever the greedy router produced
    them (the solver being absent or without a feasible solution). *)
Theorem engine_labels (libm : Libm) (ortools : option ORTools)
    (depot : LatLng) (stops : list Stop) (vehicle_count vehicle_capacity : Z)
    (depot_tw_start depot_tw_end : option string) (r : RoutingResult) :
  optimize_routes libm ortools depot stops vehicle_count vehicle_capacity
    depot_tw_start depot_tw_end = Ok r ->
  (stops = [] /\ engine r = "none" /\ routes r = []) \/
  (stops <> [] /\ engine r = "ortools" /\
   exists solver, ortools = Some solver /\
     constrained_router libm solver depot stops vehicle_count
       vehicle_capacity depot_tw_start depot_tw_end
     = Ok (Some (routes r, total_miles r))) \/
  (stops <> [] /\ engine r = "greedy-fallback" /\
   fallback_runs libm ortools depot stops vehicle_count vehicle_capacity
     depot_tw_start depot_tw_end /\
   greedy_router libm depot stops vehicle_count
   = Ok (routes r, total_miles r)).
Proof.
  intros [[-> ->]|(Hne & _ & _ & [(He & _ & Hs)|(He & Hfb & Hg & _)])]
    %optimize_routes_returns.
  - by left.
  - right. left. done.
  - right. right. done.
Qed.

Lemma engine_labels_witness :
  exists r,
    optimize_routes Sample.libm (Some (Sample.solver_answering None))
      Sample.depot [Sample.stop_A; Sample.stop_B] 2 10 None None = Ok r /\
    ((([Sample.stop_A; Sample.stop_B] = [] /\ engine r = "none" /\
       routes r = []) \/
      ([Sample.stop_A; Sample.stop_B] <> [] /\ engine r = "ortools" /\
       exists solver,
         Some (Sample.solver_answering None) = Some solver /\
         constrained_router Sample.libm solver Sample.depot
           [Sample.stop_A; Sample.stop_B] 2 10 None None
         = Ok (Some (routes r, total_miles r))) \/
      ([Sample.stop_A; Sample.stop_B] <> [] /\
       engine r = "greedy-fallback" /\
       fallback_runs Sample.libm (Some (Sample.solver_answering None))
         Sample.depot [Sample.stop_A; Sample.stop_B] 2 10 None None /\
       greedy_router Sample.libm Sample.depot
         [Sample.stop_A; Sample.stop_B] 2
       = Ok (routes r, total_miles r)))).
Proof.
  eexists. split; [vm_compute; reflexivity|].
  apply (engine_labels Sample.libm (Some (Sample.solver_answering None))
           Sample.depot [Sample.stop_A; Sample.stop_B] 2 10 None None).
  vm_compute. reflexivity.
Defined.

(** ** C6: savings *)

(** C6. In every result, [savings_pct] is
    [(baseline_miles - total_miles) / baseline_miles * 100] rounded to two
    decimals when the baseline is positive, and [0.0] when
    [baseline_miles == 0.0], whatever [total_miles] is (as for any baseline
    that is not positive). *)
Theorem savings_pct_formula (libm : Libm) (ortools : option ORTools)
    (depot : LatLng) (stops : list Stop) (vehicle_count vehicle_capacity : Z)
    (depot_tw_start depot_tw_end : option string) (r : RoutingResult) :
  optimize_routes libm ortools depot stops vehicle_count vehicle_capacity
    depot_tw_start depot_tw_end = Ok r ->
  ((0 <? baseline_miles r)%float = true ->
   savings_pct r
   = PyFloat.round2
       ((baseline_miles r - total_miles r) / baseline_miles r * 100)%float) /\
  ((baseline_miles r =? 0)%float = true -> savings_pct r = 0%float) /\
  ((0 <? baseline_miles r)%float = false -> savings_pct r = 0%float).
Proof.
  intros Hr.
  assert (savings_pct r = savings_of (baseline_miles r) (total_miles r)) as ->.
  { apply optimize_routes_returns in Hr as [[_ ->]|(_ & _ & Hs & _)]; done. }
  unfold savings_of. split; [|split].
  - by intros ->.
  - by intros ->%zero_lt_eqb_zero.
  - by intros ->.
Qed.

Lemma savings_pct_formula_witness :
  exists r,
    optimize_routes Sample.libm None Sample.depot
      [Sample.stop_B; Sample.stop_A] 3 10 None None = Ok r /\
    (0 <? baseline_miles r)%float = true /\
    savings_pct r
    = PyFloat.round2
        ((baseline_miles r - total_miles r) / baseline_miles r * 100)%float.
Proof.
  eexists. split; [vm_compute; reflexivity|]. split; [vm_compute; reflexivity|].
  apply (savings_pct_formula Sample.libm None Sample.depot
           [Sample.stop_B; Sample.stop_A] 3 10 None None).
  - vm_compute. reflexivity.
  - vm_compute. reflexivity.
Defined.

(** ** C4, C5, C10: the greedy fallback *)

(** A NaN coordinate: no distance is below [float("inf")], [best_idx]
    stays [None] and [stops[None]] raises. *)
Example nan_coordinate_raises :
  geodesy_ok Sample.libm (nan, nan) [Sample.stop_A] = false /\
  optimize_routes Sample.libm None (nan, nan) [Sample.stop_A] 1 10 None None
  = Raise TypeError.
Proof. split; vm_compute; reflexivity. Qed.

(** C4. For every non-empty stop list and every vehicle count (of 1 or
    more, and the others as well), when the greedy fallback runs on a
    request whose distances are computed, its routes partition the input
    stops: the routes hold the stop indices [0 .. n-1] once each, so every
    input stop is in exactly one route, once, and nothing else is in a
    route. *)
Theorem greedy_fallback_partitions (libm : Libm) (ortools : option ORTools)
    (depot : LatLng) (stops : list Stop) (vehicle_count vehicle_capacity : Z)
    (depot_tw_start depot_tw_end : option string) :
  stops <> [] ->
  geodesy_ok libm depot stops = true ->
  fallback_runs libm ortools depot stops vehicle_count vehicle_capacity
    depot_tw_start depot_tw_end ->
  exists r buckets,
    optimize_routes libm ortools depot stops vehicle_count vehicle_capacity
      depot_tw_start depot_tw_end = Ok r /\
    engine r = "greedy-fallback" /\
    routes r = routes_of stops buckets /\
    concat buckets ≡ₚ seq 0 (length stops) /\
    concat (routes r) ≡ₚ map visit_of stops.
Proof.
  intros Hne Hgeo Hfb.
  destruct (optimize_routes_fallback libm ortools depot stops vehicle_count
              vehicle_capacity depot_tw_start depot_tw_end Hne Hgeo Hfb)
    as (order & buckets & r & _ & _ & Hperm & Hbk & Hr & He & Hroutes & _).
  exists r, buckets. repeat (split; [done|]).
  assert (concat buckets ≡ₚ seq 0 (length stops)) as Hcat.
  { rewrite Hbk, fill_buckets_perm.
    - by rewrite concat_replicate_nil.
    - destruct (Z.to_nat (Z.max 1 vehicle_count)) eqn:E; [lia|done]. }
  split; [done|].
  rewrite Hroutes, visits_concat, <- visits_seq. unfold visits.
  by rewrite Hcat.
Qed.

Lemma greedy_fallback_partitions_witness :
  exists r buckets,
    optimize_routes Sample.libm None Sample.depot
      [Sample.stop_A; Sample.stop_B; Sample.stop_C] 2 10 None None = Ok r /\
    engine r = "greedy-fallback" /\
    routes r
    = routes_of [Sample.stop_A; Sample.stop_B; Sample.stop_C] buckets /\
    concat buckets ≡ₚ seq 0 3 /\
    concat (routes r)
    ≡ₚ map visit_of [Sample.stop_A; Sample.stop_B; Sample.stop_C].
Proof.
  apply (greedy_fallback_partitions Sample.libm None Sample.depot
           [Sample.stop_A; Sample.stop_B; Sample.stop_C] 2 10 None None).
  - discriminate.
  - vm_compute. reflexivity.
  - exact I.
Defined.

(** C5. The greedy fallback computes one nearest-neighbour tour from the
    depot: each step goes to the unvisited stop nearest to the current
    position, the earliest in input order among equidistant ones
    ([spec_tour]); the [k]-th stop of that tour is then given to vehicle
    [k mod vehicle_count], as its [k / vehicle_count]-th stop, and the
    routes are read off these buckets: the tour is not computed again per
    vehicle. *)
Theorem greedy_tour_round_robin (libm : Libm) (ortools : option ORTools)
    (depot : LatLng) (stops : list Stop) (vehicle_count vehicle_capacity : Z)
    (depot_tw_start depot_tw_end : option string) :
  stops <> [] ->
  1 <= vehicle_count ->
  geodesy_ok libm depot stops = true ->
  fallback_runs libm ortools depot stops vehicle_count vehicle_capacity
    depot_tw_start depot_tw_end ->
  exists order buckets r,
    _greedy_order libm depot stops = Ok order /\
    spec_tour libm stops depot ∅ order /\
    greedy_buckets libm depot stops vehicle_count = Ok buckets /\
    spec_round_robin (Z.to_nat vehicle_count) order buckets /\
    optimize_routes libm ortools depot stops vehicle_count vehicle_capacity
      depot_tw_start depot_tw_end = Ok r /\
    engine r = "greedy-fallback" /\
    routes r = routes_of stops buckets.
Proof.
  intros Hne Hvc Hgeo Hfb.
  destruct (optimize_routes_fallback libm ortools depot stops vehicle_count
              vehicle_capacity depot_tw_start depot_tw_end Hne Hgeo Hfb)
    as (order & buckets & r & Ho & Htour & _ & Hbk & Hr & He & Hroutes & _).
  exists order, buckets, r. split; [done|]. split; [done|].
  split; [unfold greedy_buckets; rewrite Ho; simpl; by rewrite Hbk|].
  split; [|done]. rewrite Hbk.
  replace (Z.max 1 vehicle_count) with vehicle_count by lia.
  apply round_robin_spec. lia.
Qed.

Lemma greedy_tour_round_robin_witness :
  exists order buckets r,
    _greedy_order Sample.libm Sample.depot
      [Sample.stop_B; Sample.stop_A; Sample.stop_C] = Ok order /\
    spec_tour Sample.libm [Sample.stop_B; Sample.stop_A; Sample.stop_C]
      Sample.depot ∅ order /\
    greedy_buckets Sample.libm Sample.depot
      [Sample.stop_B; Sample.stop_A; Sample.stop_C] 2 = Ok buckets /\
    spec_round_robin (Z.to_nat 2) order buckets /\
    optimize_routes Sample.libm None Sample.depot
      [Sample.stop_B; Sample.stop_A; Sample.stop_C] 2 10 None None = Ok r /\
    engine r = "greedy-fallback" /\
    routes r
    = routes_of [Sample.stop_B; Sample.stop_A; Sample.stop_C] buckets.
Proof.
  apply (greedy_tour_round_robin Sample.libm None Sample.depot
           [Sample.stop_B; Sample.stop_A; Sample.stop_C] 2 10 None None).
  - discriminate.
  - lia.
  - vm_compute. reflexivity.
  - exact I.
Defined.

(** C10, as stated, fails: with [vehicle_count = 0] the greedy fallback
    returns one route, and [min(vehicle_count, number of stops)] is 0. *)
Lemma route_count_not_min_vehicle_count :
  exists r,
    optimize_routes Sample.libm None Sample.depot [Sample.stop_A] 0 10
      None None = Ok r /\
    engine r = "greedy-fallback" /\
    routes r = [[visit_of Sample.stop_A]] /\
    Z.of_nat (length (routes r))
    <> Z.min 0 (Z.of_nat (length [Sample.stop_A])).
Proof. eexists. split; [vm_compute; reflexivity|]. by repeat split. Qed.

(** C10, amended. For every input, every route of the returned routes is
    non-empty: vehicles without stops are left out. Under the greedy
    fallback the number of routes is therefore
    [min(max(1, vehicle_count), number of stops)]. *)
Theorem routes_nonempty_count (libm : Libm) (ortools : option ORTools)
    (depot : LatLng) (stops : list Stop) (vehicle_count vehicle_capacity : Z)
    (depot_tw_start depot_tw_end : option string) (r : RoutingResult) :
  optimize_routes libm ortools depot stops vehicle_count vehicle_capacity
    depot_tw_start depot_tw_end = Ok r ->
  Forall (fun route => route <> []) (routes r) /\
  (engine r = "greedy-fallback" ->
   Z.of_nat (length (routes r))
   = Z.min (Z.max 1 vehicle_count) (Z.of_nat (length stops))).
Proof.
  intros [[-> ->]|(Hne & _ & _ & [(He & _ & Hs)|(He & Hfb & Hg & _)])]
    %optimize_routes_returns.
  - split; [constructor|done].
  - split; [|by rewrite He].
    destruct Hs as (solver & _ & Hs).
    apply constrained_router_returns in Hs
      as (model & _ & (sol & _ & Hs)%bind_Ok).
    destruct sol as [sol|]; [|done].
    apply bind_Ok in Hs as ([rts tot] & Hread & (f & _ & [= <- _])%bind_Ok).
    by eapply read_solution_nonempty.
  - apply greedy_router_returns in Hg as (order & _ & Hperm & ->).
    set (K := Z.to_nat (Z.max 1 vehicle_count)).
    assert (0 < K)%nat as HK by lia.
    pose proof (buckets_in_range (length stops) K order HK Hperm) as Hrange.
    split.
    + unfold routes_of. apply Forall_map, Forall_forall.
      intros b [Hb Hin]%list_elem_of_filter. simpl.
      apply visits_nonempty; [|done].
      by eapply (proj1 (Forall_forall _ _) Hrange).
    + intros _. unfold routes_of.
      rewrite length_map, round_robin_filter by done.
      rewrite length_take, fill_buckets_length, length_replicate.
      apply Permutation_length in Hperm. rewrite length_seq in Hperm. lia.
Qed.

Lemma routes_nonempty_count_witness :
  exists r,
    optimize_routes Sample.libm None Sample.depot
      [Sample.stop_A; Sample.stop_B] 5 10 None None = Ok r /\
    Forall (fun route => route <> []) (routes r) /\
    (engine r = "greedy-fallback" ->
     Z.of_nat (length (routes r))
     = Z.min (Z.max 1 5) (Z.of_nat (length [Sample.stop_A; Sample.stop_B]))).
Proof.
  eexists. split; [vm_compute; reflexivity|].
  apply (routes_nonempty_count Sample.libm None Sample.depot
           [Sample.stop_A; Sample.stop_B] 5 10 None None).
  vm_compute. reflexivity.
Defined.

(** ** C2: malformed time windows *)

(** C2, as stated, fails: with the solver available, a stop whose window
    start is ["late"] makes [parse_hhmm], and then [optimize_routes], raise
    ValueError. *)
Lemma malformed_window_raises :
  parse_hhmm (stop_tw_start Sample.stop_late) = Raise ValueError /\
  optimize_routes Sample.libm (Some (Sample.solver_answering None))
    Sample.depot [Sample.stop_late] 1 10 None None = Raise ValueError.
Proof. split; vm_compute; reflexivity. Qed.

(** The order of the block matters: a library that rejects the request
    when the model is set up (here, a fleet of 0 vehicles) fails before any
    window is read, and its error is the one that escapes. *)
Lemma library_error_precedes_window_error :
  optimize_routes Sample.libm (Some Sample.solver_strict) Sample.depot
    [Sample.stop_late] 0 10 None None = Raise SolverError /\
  optimize_routes Sample.libm (Some Sample.solver_strict) Sample.depot
    [Sample.stop_late] 1 10 None None = Raise ValueError.
Proof. split; vm_compute; reflexivity. Qed.

(** C2, amended. For every input (of good geodesy) in which some stop's
    time-window string is present and is not parseable as HH:MM: when the
    constrained solver is unavailable the strings are never parsed and the
    greedy fallback returns a normal result; when the solver is available
    the malformation is never recovered, [optimize_routes] returns no
    result, and an exception escapes it whenever the calls into the
    library that precede the parsing come back. A window bound is replaced
    by its unconstrained value, 0 for the start and 1440 for the end, when
    [parse_hhmm] gives [None] (absent, empty, blank, "nan") or 0 (as for
    "00:00"), and in no other case: a window is returned exactly when both
    strings parse, with the bounds parsed. *)
Theorem malformed_window_outcomes (libm : Libm) (depot : LatLng)
    (stops : list Stop) (vehicle_count vehicle_capacity : Z)
    (depot_tw_start depot_tw_end : option string) (s : Stop) :
  geodesy_ok libm depot stops = true ->
  s ∈ stops ->
  raises (parse_hhmm (stop_tw_start s)) \/
  raises (parse_hhmm (stop_tw_end s)) ->
  (exists r,
     optimize_routes libm None depot stops vehicle_count vehicle_capacity
       depot_tw_start depot_tw_end = Ok r /\
     engine r = "greedy-fallback") /\
  (forall solver,
     (forall r,
        optimize_routes libm (Some solver) depot stops vehicle_count
          vehicle_capacity depot_tw_start depot_tw_end <> Ok r) /\
     (library_returns solver ->
      raises (optimize_routes libm (Some solver) depot stops vehicle_count
                vehicle_capacity depot_tw_start depot_tw_end))) /\
  (forall tw_start tw_end lo hi,
     window tw_start tw_end = Ok (lo, hi) <->
     exists a b,
       parse_hhmm tw_start = Ok a /\ parse_hhmm tw_end = Ok b /\
       lo = default 0 a /\
       hi = match b with
            | Some v => if v =? 0 then 1440 else v
            | None => 1440
            end).
Proof.
  intros Hgeo Hs Hbad.
  assert (stops <> []) as Hne by (intros ->; by apply elem_of_nil in Hs).
  apply window_raises in Hbad.
  split; [|split].
  - destruct (optimize_routes_fallback libm None depot stops vehicle_count
                vehicle_capacity depot_tw_start depot_tw_end Hne Hgeo I)
      as (order & buckets & r & _ & _ & _ & _ & Hr & He & _).
    eauto.
  - intros solver. split.
    + intros r Hr.
      assert (forall res,
                constrained_router libm solver depot stops vehicle_count
                  vehicle_capacity depot_tw_start depot_tw_end <> Ok res)
        as Hno.
      { intros res (model & Hm & _)%constrained_router_returns.
        unfold build_model in Hm.
        apply bind_Ok in Hm as (dist & _ & (wd & _ & (ws & Hws & _)%bind_Ok)
          %bind_Ok).
        apply mapM_Ok in Hws as [_ Hws].
        apply list_elem_of_lookup in Hs as [i Hi].
        destruct (Hws i s Hi) as (w & _ & Hw).
        destruct Hbad as [e He]. congruence. }
      apply optimize_routes_returns in Hr
        as [[-> _]|(_ & _ & _ & [(_ & _ & Hc)|(_ & Hfb & _)])]; [done| |].
      * destruct Hc as (solver' & [= <-] & Hc). by apply Hno in Hc.
      * simpl in Hfb. by apply Hno in Hfb.
    + intros [Hadd Hset]. unfold optimize_routes. case_decide as Hlen.
      { by apply length_zero_iff_nil in Hlen. }
      apply raises_bind_l, raises_bind_l. unfold constrained_router.
      apply raises_bind_r; [apply ends_dist_matrix|intros dist _].
      apply raises_bind_r; [apply Hadd|intros u _].
      apply raises_bind_r; [apply ends_window|intros wd _].
      apply raises_bind_r; [apply Hset|intros u' _].
      apply raises_bind_l. by apply set_windows_raises with s.
  - intros tw_start tw_end lo hi. unfold window. split.
    + intros (a & Ha & (b & Hb & [= <- <-])%bind_Ok)%bind_Ok.
      exists a, b. repeat split; try done.
      destruct a as [v|]; simpl; [|done]. by destruct (Z.eqb_spec v 0).
    + intros (a & b & -> & -> & -> & ->). simpl. do 2 f_equal.
      destruct a as [v|]; simpl; [|done]. by destruct (Z.eqb_spec v 0).
Qed.

Lemma malformed_window_outcomes_witness :
  (exists r,
     optimize_routes Sample.libm None Sample.depot
       [Sample.stop_A; Sample.stop_late] 1 10 None None = Ok r /\
     engine r = "greedy-fallback") /\
  (forall solver,
     (forall r,
        optimize_routes Sample.libm (Some solver) Sample.depot
          [Sample.stop_A; Sample.stop_late] 1 10 None None <> Ok r) /\
     (library_returns solver ->
      raises (optimize_routes Sample.libm (Some solver) Sample.depot
                [Sample.stop_A; Sample.stop_late] 1 10 None None))) /\
  (forall tw_start tw_end lo hi,
     window tw_start tw_end = Ok (lo, hi) <->
     exists a b,
       parse_hhmm tw_start = Ok a /\ parse_hhmm tw_end = Ok b /\
       lo = default 0 a /\
       hi = match b with
            | Some v => if v =? 0 then 1440 else v
            | None => 1440
            end).
Proof.
  apply (malformed_window_outcomes Sample.libm Sample.depot
           [Sample.stop_A; Sample.stop_late] 1 10 None None
           Sample.stop_late).
  - vm_compute. reflexivity.
  - apply elem_of_cons. right. apply elem_of_cons. by left.
  - left. exists ValueError. vm_compute. reflexivity.
Defined.

(** ** C8: the distance matrix *)

(** C8, as stated, fails: on the same route depot, A, N, depot the greedy
    fallback reports 6.69 miles, the rounded sum of the raw distances,
    where the cost derived from the matrix (380 + 3070 + 3235 thousandths),
    which the constrained router reports for that route, is 6.68 miles. *)
Lemma fallback_total_not_matrix_total :
  exists buckets r_fallback r_matrix,
    greedy_buckets Sample.libm Sample.depot
      [Sample.stop_A; Sample.stop_N] 1 = Ok buckets /\
    as_assignment buckets = [[0; 1; 2]%nat] /\
    optimize_routes Sample.libm None Sample.depot
      [Sample.stop_A; Sample.stop_N] 1 10 None None = Ok r_fallback /\
    optimize_routes Sample.libm
      (Some (Sample.solver_answering (Some (as_assignment buckets))))
      Sample.depot [Sample.stop_A; Sample.stop_N] 1 10 None None
    = Ok r_matrix /\
    routes r_fallback = routes r_matrix /\
    total_miles r_fallback = 6.69%float /\
    total_miles r_matrix = 6.68%float /\
    total_miles r_fallback <> total_miles r_matrix.
Proof.
  do 3 eexists. split; [vm_compute; reflexivity|].
  split; [reflexivity|]. split; [vm_compute; reflexivity|].
  split; [vm_compute; reflexivity|]. simpl.
  repeat (split; [reflexivity|]).
  intros H. apply (f_equal (fun x => (x =? 6.69)%float)) in H.
  vm_compute in H. discriminate.
Qed.

(** C8, amended. The n x n integer matrix (cell (i, j) the geodesic
    distance from point i to point j in whole thousandths of a mile, zero on
    the diagonal) is the source of the travel costs of the constrained
    router only: it is the arc cost given to the solver, the routes of a
    result of the solver are the paths of the assignment the solver
    answered, and the reported total is the sum of the cells of the matrix
    over the arcs of these paths (depot, stops in order, depot), divided by
    1000 and rounded to two decimals. The greedy fallback does not read the
    matrix: its total is the sum of the raw geodesic distances of its legs,
    rounded to two decimals. *)
Theorem matrix_and_raw_costs (libm : Libm) (depot : LatLng)
    (stops : list Stop) (vehicle_count vehicle_capacity : Z)
    (depot_tw_start depot_tw_end : option string) :
  geodesy_ok libm depot stops = true ->
  let points := depot_point depot depot_tw_start depot_tw_end :: stops in
  (forall model,
     build_model libm depot stops vehicle_count vehicle_capacity
       depot_tw_start depot_tw_end = Ok model ->
     length (rm_arc_cost model) = length points /\
     forall i j pi pj, points !! i = Some pi -> points !! j = Some pj ->
       cell (rm_arc_cost model) i j
       = (if decide (i = j) then Ok 0
          else d ← haversine_miles libm (stop_pos pi) (stop_pos pj);
               PyFloat.round (d * 1000)%float) /\
       is_ok (cell (rm_arc_cost model) i j) = true) /\
  (forall solver r,
     optimize_routes libm (Some solver) depot stops vehicle_count
       vehicle_capacity depot_tw_start depot_tw_end = Ok r ->
     engine r = "ortools" ->
     exists model solution total_mmiles f,
       build_model libm depot stops vehicle_count vehicle_capacity
         depot_tw_start depot_tw_end = Ok model /\
       SolveWithParameters solver model = Ok (Some solution) /\
       routes r
       = solution_routes points solution (Z.to_nat vehicle_count) /\
       matrix_sum (rm_arc_cost model)
         (solution_arcs solution (Z.to_nat vehicle_count))
       = Ok total_mmiles /\
       PyFloat.of_int total_mmiles = Ok f /\
       total_miles r = PyFloat.round2 (f / 1000)%float) /\
  (exists buckets,
     greedy_buckets libm depot stops vehicle_count = Ok buckets /\
     greedy_router libm depot stops vehicle_count
     = Ok (routes_of stops buckets,
           PyFloat.round2 (raw_miles libm depot stops buckets))).
Proof.
  intros Hgeo points. split; [|split].
  - intros model (Hd & _)%build_model_returns.
    by apply dist_matrix_cells in Hd.
  - intros solver r Hr He.
    apply optimize_routes_returns in Hr
      as [[_ ->]|(_ & _ & _ & [(_ & _ & Hs)|(He' & _)])];
      [done| |by rewrite He' in He].
    destruct Hs as (solver' & [= <-] & Hs).
    apply constrained_router_returns in Hs
      as (model & Hm & (sol & Hsol & Hs)%bind_Ok).
    destruct sol as [sol|]; [|done].
    apply bind_Ok in Hs
      as ([rts mm] & Hread & (f & Hf & [= Hrts Htot])%bind_Ok).
    apply read_solution_arcs in Hread as (-> & cells & Hcells & ->).
    exists model, sol, (foldr Z.add 0 cells), f.
    split; [done|]. split; [done|]. split; [by rewrite <- Hrts|].
    split; [|done].
    unfold matrix_sum, solution_arcs. by rewrite Hcells.
  - destruct (greedy_router_spec libm depot stops Hgeo vehicle_count)
      as (order & buckets & _ & _ & _ & _ & Hb & Hg).
    by exists buckets.
Qed.

Lemma matrix_and_raw_costs_witness :
  (exists r model solution total_mmiles f,
     optimize_routes Sample.libm
       (Some (Sample.solver_answering (Some [[0; 1; 2]%nat])))
       Sample.depot [Sample.stop_A; Sample.stop_N] 1 10 None None = Ok r /\
     build_model Sample.libm Sample.depot [Sample.stop_A; Sample.stop_N]
       1 10 None None = Ok model /\
     SolveWithParameters (Sample.solver_answering (Some [[0; 1; 2]%nat]))
       model = Ok (Some solution) /\
     routes r
     = solution_routes
         (depot_point Sample.depot None None
          :: [Sample.stop_A; Sample.stop_N]) solution (Z.to_nat 1) /\
     matrix_sum (rm_arc_cost model) (solution_arcs solution (Z.to_nat 1))
     = Ok total_mmiles /\
     PyFloat.of_int total_mmiles = Ok f /\
     total_miles r = PyFloat.round2 (f / 1000)%float) /\
  (exists buckets,
     greedy_buckets Sample.libm Sample.depot
       [Sample.stop_A; Sample.stop_N] 1 = Ok buckets /\
     greedy_router Sample.libm Sample.depot [Sample.stop_A; Sample.stop_N] 1
     = Ok (routes_of [Sample.stop_A; Sample.stop_N] buckets,
           PyFloat.round2
             (raw_miles Sample.libm Sample.depot
                [Sample.stop_A; Sample.stop_N] buckets))).
Proof.
  assert (geodesy_ok Sample.libm Sample.depot
            [Sample.stop_A; Sample.stop_N] = true) as Hgeo
    by (vm_compute; reflexivity).
  destruct (matrix_and_raw_costs Sample.libm Sample.depot
              [Sample.stop_A; Sample.stop_N] 1 10 None None Hgeo)
    as (_ & Hsolver & Hfallback).
  split; [|exact Hfallback].
  assert (exists r,
            optimize_routes Sample.libm
              (Some (Sample.solver_answering (Some [[0; 1; 2]%nat])))
              Sample.depot [Sample.stop_A; Sample.stop_N] 1 10 None None
            = Ok r /\ engine r = "ortools") as (r & Hr & He)
    by (eexists; split; vm_compute; reflexivity).
  destruct (Hsolver _ r Hr He) as (model & solution & mm & f & H).
  exists r, model, solution, mm, f. split; [exact Hr|exact H].
Defined.

(** ** C9: fleet parameters below 1 *)

(** Where the fleet parameters are clamped: the capacity in the model of
    the constrained router, the vehicle count in the greedy router. *)
Lemma fleet_clamping libm depot stops vehicle_count vehicle_capacity
    depot_tw_start depot_tw_end :
  build_model libm depot stops vehicle_count vehicle_capacity depot_tw_start
    depot_tw_end
  = build_model libm depot stops vehicle_count (Z.max 1 vehicle_capacity)
      depot_tw_start depot_tw_end /\
  greedy_router libm depot stops vehicle_count
  = greedy_router libm depot stops (Z.max 1 vehicle_count).
Proof.
  unfold build_model, greedy_router, greedy_buckets.
  by rewrite !Z.max_assoc, !Z.max_id.
Qed.

(** C9 at [vehicle_count = 0] with the solver available: the model built
    for the solver has 0 vehicles and no capacity, not 1; a solver that
    rejects such a model makes [optimize_routes] raise, and one that accepts
    it yields a result without any route. The greedy fallback, on the same
    request, clamps the count to 1 and returns one route. *)
Lemma vehicle_count_zero_unclamped :
  (m ← build_model Sample.libm Sample.depot [Sample.stop_A; Sample.stop_B]
         0 10 None None;
   Ok (rm_vehicles m, rm_capacities m)) = Ok (0, []) /\
  optimize_routes Sample.libm (Some Sample.solver_strict) Sample.depot
    [Sample.stop_A; Sample.stop_B] 0 10 None None = Raise SolverError /\
  (exists r,
     optimize_routes Sample.libm (Some (Sample.solver_answering (Some [])))
       Sample.depot [Sample.stop_A; Sample.stop_B] 0 10 None None = Ok r /\
     engine r = "ortools" /\ routes r = []) /\
  (exists r,
     optimize_routes Sample.libm None Sample.depot
       [Sample.stop_A; Sample.stop_B] 0 10 None None = Ok r /\
     routes r = [[visit_of Sample.stop_A; visit_of Sample.stop_B]]).
Proof.
  split; [vm_compute; reflexivity|]. split; [vm_compute; reflexivity|].
  split; eexists; (split; [vm_compute; reflexivity|]); by repeat split.
Qed.

(** * Further properties of the engine *)

(** ** Exceptions of the greedy tour *)

Lemma bind_Raise {A B} (m : result A) (f : A -> result B) (e : exn) :
  m ≫= f = Raise e ->
  m = Raise e \/ exists a, m = Ok a /\ f a = Raise e.
Proof. destruct m as [a|e'|]; simpl; [eauto|intros [= ->]; by left|done]. Qed.

Lemma math_1_raises f x e : math.math_1 f x = Raise e -> e = ValueError.
Proof. unfold math.math_1. repeat case_match; congruence. Qed.

Lemma pow2_raises lm x e : math.pow2 lm x = Raise e -> e = OverflowError.
Proof. unfold math.pow2. repeat case_match; congruence. Qed.

Lemma haversine_raises lm a b e :
  haversine_miles lm a b = Raise e -> e = ValueError \/ e = OverflowError.
Proof.
  unfold haversine_miles, math.sin, math.cos, math.asin, math.sqrt.
  intros H.
  repeat (apply bind_Raise in H as [H|(? & _ & H)];
          [first [apply math_1_raises in H; by left
                 |apply pow2_raises in H; by right]|]).
  done.
Qed.

Lemma nearest_raises lm visited curr ss :
  forall i bi bd e,
    nearest lm visited curr i ss bi bd = Raise e ->
    e = ValueError \/ e = OverflowError.
Proof.
  induction ss as [|s ss IH]; intros i bi bd e; simpl; [done|].
  case_decide as Hv; [apply IH|].
  intros [Hr|(d & _ & Hr)]%bind_Raise; [by eapply haversine_raises|].
  case_match; by eapply IH.
Qed.

Lemma greedy_loop_raises lm stops fuel :
  forall visited order curr e,
    greedy_loop lm fuel stops visited order curr = Raise e ->
    e = TypeError \/ e = ValueError \/ e = OverflowError.
Proof.
  induction fuel as [|fuel IH]; intros visited order curr e; simpl;
    case_decide as Hsz; try done.
  intros [H|([[b|] rd] & Hn & H)]%bind_Raise.
  - apply nearest_raises in H. tauto.
  - apply nearest_fresh in Hn as [[=]|(b' & [= <-] & _ & Hb)].
    destruct (lookup_lt_is_Some_2 stops b ltac:(simpl in Hb; lia)) as [s Hs].
    rewrite Hs in H. by eapply IH.
  - injection H as <-. by left.
Qed.

(** X1. The greedy tour ends, for every input and whatever the distances are:
    with a permutation of the indices [0 .. n-1], or with the TypeError of
    [stops[None]], or with an error of the [math] module. The loop does not run
    on, and [stops[best_idx]] is never out of range. *)
Theorem greedy_order_outcomes (libm : Libm) (depot : LatLng)
    (stops : list Stop) :
  match _greedy_order libm depot stops with
  | Ok order => order ≡ₚ seq 0 (length stops)
  | Raise e => e = TypeError \/ e = ValueError \/ e = OverflowError
  | Diverge => False
  end.
Proof.
  destruct (_greedy_order libm depot stops) as [order|e|] eqn:H.
  - by eapply greedy_order_returns.
  - by eapply greedy_loop_raises.
  - by apply greedy_order_ends in H.
Qed.

(** ** The model handed to the solver *)






(** ** Results of the orchestrator *)

(** X3. A result says which router ran: without stops the note is "no stops"; a
    result of the solver carries no note; a result of the greedy fallback
    always carries one, which tells a missing solver from an infeasible
    request. *)
Theorem note_tells_the_router (libm : Libm) (ortools : option ORTools)
    (depot : LatLng) (stops : list Stop) (vehicle_count vehicle_capacity : Z)
    (depot_tw_start depot_tw_end : option string) (r : RoutingResult) :
  optimize_routes libm ortools depot stops vehicle_count vehicle_capacity
    depot_tw_start depot_tw_end = Ok r ->
  (engine r = "none" -> note r = Some "no stops") /\
  (engine r = "ortools" -> note r = None) /\
  (engine r = "greedy-fallback" ->
   (ortools = None -> note r = Some note_install) /\
   (ortools <> None -> note r = Some note_infeasible)).
Proof.
  intros [[_ ->]|(_ & _ & _ & [(He & Hn & _)|(He & _ & _ & Hn)])]
    %optimize_routes_returns; rewrite ?He; repeat split; try done.
  - by intros ->.
  - destruct ortools; done.
Qed.

Lemma note_tells_the_router_witness :
  exists r,
    optimize_routes Sample.libm (Some (Sample.solver_answering None))
      Sample.depot [Sample.stop_A] 1 10 None None = Ok r /\
    engine r = "greedy-fallback" /\ note r = Some note_infeasible.
Proof.
  eexists. split; [vm_compute; reflexivity|]. split; [reflexivity|].
  apply (note_tells_the_router Sample.libm
           (Some (Sample.solver_answering None)) Sample.depot
           [Sample.stop_A] 1 10 None None); [vm_compute|..]; done.
Defined.

(** X4. The baseline depends on the depot and the stops only: two requests that
    differ in the solver, the fleet or the depot's time window report the same
    [baseline_miles]. *)
Theorem baseline_same_for_every_fleet (libm : Libm)
    (ortools ortools' : option ORTools) (depot : LatLng) (stops : list Stop)
    (vehicle_count vehicle_count' vehicle_capacity vehicle_capacity' : Z)
    (tws twe tws' twe' : option string) (r r' : RoutingResult) :
  optimize_routes libm ortools depot stops vehicle_count vehicle_capacity
    tws twe = Ok r ->
  optimize_routes libm ortools' depot stops vehicle_count' vehicle_capacity'
    tws' twe' = Ok r' ->
  baseline_miles r = baseline_miles r'.
Proof.
  intros [[-> ->]|(Hne & Hb & _)]%optimize_routes_returns
         [[Hs ->]|(Hne' & Hb' & _)]%optimize_routes_returns; try done.
  congruence.
Qed.

Lemma baseline_same_for_every_fleet_witness :
  exists r r',
    optimize_routes Sample.libm None Sample.depot
      [Sample.stop_B; Sample.stop_A] 1 10 None None = Ok r /\
    optimize_routes Sample.libm
      (Some (Sample.solver_answering (Some [[0; 2]%nat; [0; 1]%nat])))
      Sample.depot [Sample.stop_B; Sample.stop_A] 2 3 (Some "08:00") None
    = Ok r' /\
    baseline_miles r = baseline_miles r'.
Proof.
  do 2 eexists. split; [vm_compute; reflexivity|].
  split; [vm_compute; reflexivity|].
  apply (baseline_same_for_every_fleet Sample.libm None
           (Some (Sample.solver_answering (Some [[0; 2]%nat; [0; 1]%nat])))
           Sample.depot [Sample.stop_B; Sample.stop_A] 1 2 10 3 None None
           (Some "08:00") None); vm_compute; reflexivity.
Defined.

(** ** Routes of the greedy fallback *)

(** The routes of a fallback result, read off the buckets of its tour. *)
Lemma fallback_result_routes libm ortools depot stops vehicle_count
    vehicle_capacity depot_tw_start depot_tw_end r :
  optimize_routes libm ortools depot stops vehicle_count vehicle_capacity
    depot_tw_start depot_tw_end = Ok r ->
  engine r = "greedy-fallback" ->
  stops <> [] /\
  exists order,
    _greedy_order libm depot stops = Ok order /\
    order ≡ₚ seq 0 (length stops) /\
    routes r
    = routes_of stops
        (fill_buckets (replicate (Z.to_nat (Z.max 1 vehicle_count)) []) 0
           order).
Proof.
  intros [[_ ->]|(Hne & _ & _ & [(He & _)|(_ & _ & Hg & _)])]
    %optimize_routes_returns Heng; try (by rewrite He in Heng); [done|].
  split; [done|]. by apply greedy_router_returns in Hg.
Qed.

Lemma fill_buckets_single order :
  forall b idx, fill_buckets [b] idx order = [b ++ order].
Proof.
  induction order as [|x order IH]; intros b idx.
  - simpl. by rewrite app_nil_r.
  - change (fill_buckets [b] idx (x :: order))
      with (fill_buckets (alter (fun b => b ++ [x]) (idx mod 1)%nat [b])
              (S idx) order).
    rewrite Nat.mod_1_r. simpl. by rewrite IH, <- app_assoc.
Qed.

Lemma visits_length stops b :
  Forall (fun idx => idx < length stops)%nat b ->
  length (visits stops b) = length b.
Proof.
  induction 1 as [|idx b Hidx _ IH]; [done|].
  destruct (lookup_lt_is_Some_2 stops idx Hidx) as [s Hs].
  change (visits stops (idx :: b))
    with (match visit_of <$> stops !! idx with
          | Some y => y :: visits stops b
          | None => visits stops b
          end).
  rewrite Hs. simpl. by rewrite IH.
Qed.

(** The number of stops of bucket [v] after a tour of [n] stops. *)
Lemma round_robin_length K order v b :
  (0 < K)%nat ->
  fill_buckets (replicate K []) 0 order !! v = Some b ->
  length b = ((length order + K - 1 - v) / K)%nat.
Proof.
  intros HK Hb.
  destruct (fill_buckets_inv K order HK order 0 (replicate K []))
    as [Hlen Hinv]; [done|apply bucket_inv_init|].
  assert (v < K)%nat as Hv by (rewrite <- Hlen; by eapply lookup_lt_Some).
  set (n := length order) in *.
  pose proof (Nat.div_mod_eq (n + K - 1 - v) K) as Hdm.
  pose proof (Nat.mod_upper_bound (n + K - 1 - v) K ltac:(lia)) as Hmod.
  set (L := ((n + K - 1 - v) / K)%nat) in *.
  set (R := ((n + K - 1 - v) mod K)%nat) in *.
  apply Nat.le_antisymm.
  - apply lookup_ge_None. rewrite (Hinv v b L Hb). case_decide; [nia|done].
  - destruct L as [|L']; [lia|].
    assert (is_Some (b !! L')) as Hs.
    { rewrite (Hinv v b L' Hb). case_decide; [|nia].
      apply lookup_lt_is_Some. fold n. nia. }
    apply lookup_lt_is_Some in Hs. lia.
Qed.

(** X5. With one vehicle (or a count below 1, clamped to 1) the fallback
    returns exactly one route: all the stops, in the order of the
    nearest-neighbour tour. *)
Theorem single_vehicle_single_route (libm : Libm) (ortools : option ORTools)
    (depot : LatLng) (stops : list Stop) (vehicle_count vehicle_capacity : Z)
    (depot_tw_start depot_tw_end : option string) (r : RoutingResult) :
  optimize_routes libm ortools depot stops vehicle_count vehicle_capacity
    depot_tw_start depot_tw_end = Ok r ->
  engine r = "greedy-fallback" ->
  vehicle_count <= 1 ->
  exists order,
    _greedy_order libm depot stops = Ok order /\
    routes r = [visits stops order] /\
    visits stops order ≡ₚ map visit_of stops.
Proof.
  intros Hr He Hvc.
  destruct (fallback_result_routes _ _ _ _ _ _ _ _ _ Hr He)
    as (Hne & order & Ho & Hperm & Hroutes).
  exists order. split; [done|].
  replace (Z.to_nat (Z.max 1 vehicle_count)) with 1%nat in Hroutes by lia.
  simpl in Hroutes. rewrite fill_buckets_single in Hroutes. simpl in Hroutes.
  split.
  - rewrite Hroutes. unfold routes_of.
    rewrite filter_cons_True; [done|].
    intros ->. apply Permutation_length in Hperm.
    rewrite length_seq in Hperm. destruct stops; [done|simpl in Hperm; lia].
  - rewrite <- visits_seq. unfold visits. by rewrite Hperm.
Qed.

Lemma single_vehicle_single_route_witness :
  exists r,
    optimize_routes Sample.libm None Sample.depot
      [Sample.stop_B; Sample.stop_C; Sample.stop_A] 0 10 None None = Ok r /\
    exists order,
      _greedy_order Sample.libm Sample.depot
        [Sample.stop_B; Sample.stop_C; Sample.stop_A] = Ok order /\
      routes r
      = [visits [Sample.stop_B; Sample.stop_C; Sample.stop_A] order] /\
      visits [Sample.stop_B; Sample.stop_C; Sample.stop_A] order
      ≡ₚ map visit_of [Sample.stop_B; Sample.stop_C; Sample.stop_A].
Proof.
  eexists. split; [vm_compute; reflexivity|].
  apply (single_vehicle_single_route Sample.libm None Sample.depot
           [Sample.stop_B; Sample.stop_C; Sample.stop_A] 0 10 None None).
  - vm_compute. reflexivity.
  - reflexivity.
  - lia.
Defined.

(** Route [i] of a fallback result and its number of stops. *)
Lemma fallback_route_length libm ortools depot stops vehicle_count
    vehicle_capacity depot_tw_start depot_tw_end r i route :
  optimize_routes libm ortools depot stops vehicle_count vehicle_capacity
    depot_tw_start depot_tw_end = Ok r ->
  engine r = "greedy-fallback" ->
  routes r !! i = Some route ->
  let K := Z.to_nat (Z.max 1 vehicle_count) in
  (i < K)%nat /\ (i < length stops)%nat /\
  length route = ((length stops + K - 1 - i) / K)%nat.
Proof.
  intros Hr He Hi K.
  destruct (fallback_result_routes _ _ _ _ _ _ _ _ _ Hr He)
    as (Hne & order & Ho & Hperm & Hroutes).
  fold K in Hroutes. assert (0 < K)%nat as HK by (subst K; lia).
  pose proof (Permutation_length Hperm) as Hn. rewrite length_seq in Hn.
  unfold routes_of in Hroutes.
  rewrite round_robin_filter, Hn in Hroutes by done.
  rewrite Hroutes, list_lookup_fmap in Hi.
  destruct (take (length stops) (fill_buckets (replicate K []) 0 order) !! i)
    as [b|] eqn:Hb; [|done].
  injection Hi as <-.
  pose proof (lookup_lt_Some _ _ _ Hb) as Hlt.
  rewrite length_take, fill_buckets_length, length_replicate in Hlt.
  rewrite lookup_take_lt in Hb by lia.
  split; [lia|]. split; [lia|].
  rewrite visits_length.
  - rewrite (round_robin_length K order i b HK Hb). by rewrite Hn.
  - pose proof (buckets_in_range (length stops) K order HK Hperm) as Hrange.
    eapply (proj1 (Forall_forall _ _) Hrange). by eapply list_elem_of_lookup_2.
Qed.

(** X6. Round-robin balances the number of stops, not the load: in a fallback
    result an earlier route never has fewer stops than a later one, and at most
    one more. *)
Theorem fallback_routes_balanced (libm : Libm) (ortools : option ORTools)
    (depot : LatLng) (stops : list Stop) (vehicle_count vehicle_capacity : Z)
    (depot_tw_start depot_tw_end : option string) (r : RoutingResult)
    (i j : nat) (route_i route_j : list Visit) :
  optimize_routes libm ortools depot stops vehicle_count vehicle_capacity
    depot_tw_start depot_tw_end = Ok r ->
  engine r = "greedy-fallback" ->
  routes r !! i = Some route_i ->
  routes r !! j = Some route_j ->
  (i <= j)%nat ->
  (length route_j <= length route_i <= length route_j + 1)%nat.
Proof.
  intros Hr He Hi Hj Hij.
  destruct (fallback_route_length _ _ _ _ _ _ _ _ _ _ _ Hr He Hi)
    as (HiK & Hin & ->).
  destruct (fallback_route_length _ _ _ _ _ _ _ _ _ _ _ Hr He Hj)
    as (HjK & Hjn & ->).
  set (K := Z.to_nat (Z.max 1 vehicle_count)) in *.
  set (n := length stops) in *.
  split.
  - apply Nat.Div0.div_le_mono. lia.
  - rewrite <- (Nat.div_add _ 1 K) by lia.
    apply Nat.Div0.div_le_mono. lia.
Qed.

Lemma fallback_routes_balanced_witness :
  exists r route_i route_j,
    optimize_routes Sample.libm None Sample.depot
      [Sample.stop_A; Sample.stop_B; Sample.stop_C] 2 10 None None = Ok r /\
    routes r !! 0%nat = Some route_i /\
    routes r !! 1%nat = Some route_j /\
    (length route_j <= length route_i <= length route_j + 1)%nat.
Proof.
  do 3 eexists. split; [vm_compute; reflexivity|].
  split; [reflexivity|]. split; [reflexivity|].
  eapply (fallback_routes_balanced Sample.libm None Sample.depot
            [Sample.stop_A; Sample.stop_B; Sample.stop_C] 2 10 None None
            _ 0%nat 1%nat).
  - vm_compute. reflexivity.
  - reflexivity.
  - reflexivity.
  - reflexivity.
  - lia.
Defined.

(** X7. With at least as many vehicles as stops, the fallback gives every stop
    a route of its own. *)
Theorem enough_vehicles_one_stop_each (libm : Libm)
    (ortools : option ORTools) (depot : LatLng) (stops : list Stop)
    (vehicle_count vehicle_capacity : Z)
    (depot_tw_start depot_tw_end : option string) (r : RoutingResult) :
  optimize_routes libm ortools depot stops vehicle_count vehicle_capacity
    depot_tw_start depot_tw_end = Ok r ->
  engine r = "greedy-fallback" ->
  Z.of_nat (length stops) <= vehicle_count ->
  length (routes r) = length stops /\
  Forall (fun route => length route = 1%nat) (routes r).
Proof.
  intros Hr He Hvc.
  destruct (fallback_result_routes _ _ _ _ _ _ _ _ _ Hr He)
    as (Hne & order & Ho & Hperm & Hroutes).
  set (K := Z.to_nat (Z.max 1 vehicle_count)) in *.
  assert (0 < length stops)%nat as Hn by (destruct stops; [done|simpl; lia]).
  assert (length stops <= K)%nat as HK by (subst K; lia).
  split.
  - pose proof (Permutation_length Hperm) as Hlen.
    rewrite length_seq in Hlen. unfold routes_of in Hroutes.
    rewrite Hroutes, length_map, round_robin_filter by lia.
    rewrite length_take, fill_buckets_length, length_replicate. lia.
  - apply Forall_lookup. intros i route Hi.
    destruct (fallback_route_length _ _ _ _ _ _ _ _ _ _ _ Hr He Hi)
      as (HiK & Hin & ->).
    fold K. symmetry.
    apply (Nat.div_unique _ K 1 (length stops - 1 - i)); lia.
Qed.

Lemma enough_vehicles_one_stop_each_witness :
  exists r,
    optimize_routes Sample.libm None Sample.depot
      [Sample.stop_A; Sample.stop_B; Sample.stop_C] 5 10 None None = Ok r /\
    length (routes r) = 3%nat /\
    Forall (fun route => length route = 1%nat) (routes r).
Proof.
  eexists. split; [vm_compute; reflexivity|].
  apply (enough_vehicles_one_stop_each Sample.libm None Sample.depot
           [Sample.stop_A; Sample.stop_B; Sample.stop_C] 5 10 None None).
  - vm_compute. reflexivity.
  - reflexivity.
  - simpl. lia.
Defined.

(** ** What a result can hold *)

Lemma walk_route_visits (P : Visit -> Prop) depot_pt stops dist nodes :
  (forall s, s ∈ stops -> P (visit_of s)) ->
  forall prev vr tot prev' vr' tot',
    walk_route (depot_pt :: stops) dist nodes prev vr tot
    = Ok (prev', vr', tot') ->
    Forall P vr -> Forall P vr'.
Proof.
  intros HP. induction nodes as [|node nodes IH];
    intros prev vr tot prev' vr' tot'; simpl.
  - by intros [= <- <- <-].
  - case_decide as Hnode; [apply IH|].
    destruct node as [|node]; [done|]. simpl.
    destruct (stops !! node) as [s|] eqn:Hs; [|done].
    intros (c & _ & Hrest)%bind_Ok Hvr. eapply IH; [exact Hrest|].
    apply Forall_app. split; [done|]. repeat constructor.
    apply HP. by eapply list_elem_of_lookup_2.
Qed.

Lemma read_solution_visits (P : Visit -> Prop) depot_pt stops dist solution k :
  (forall s, s ∈ stops -> P (visit_of s)) ->
  forall v routes tot routes' tot',
    read_solution (depot_pt :: stops) dist solution v k routes tot
    = Ok (routes', tot') ->
    Forall (Forall P) routes -> Forall (Forall P) routes'.
Proof.
  intros HP. induction k as [|k IH]; intros v routes tot routes' tot'.
  - simpl. by intros [= <- <-].
  - cbn [read_solution].
    intros ([[prev vr] t] & Hw & (c & _ & Hrest)%bind_Ok)%bind_Ok Hall.
    eapply walk_route_visits in Hw; [|done|constructor].
    eapply IH; [exact Hrest|]. destruct vr; [done|].
    apply Forall_app. split; [done|]. constructor; [done|constructor].
Qed.

Lemma read_solution_length points dist solution k :
  forall v routes tot routes' tot',
    read_solution points dist solution v k routes tot = Ok (routes', tot') ->
    (length routes' <= length routes + k)%nat.
Proof.
  induction k as [|k IH]; intros v routes tot routes' tot'; simpl.
  - intros [= <- <-]. lia.
  - intros ([[prev vr] t] & _ & (c & _ & Hrest)%bind_Ok)%bind_Ok.
    apply IH in Hrest. destruct vr; [lia|].
    rewrite length_app in Hrest. simpl in Hrest. lia.
Qed.

Lemma visits_of_stops (P : Visit -> Prop) stops b :
  (forall s, s ∈ stops -> P (visit_of s)) -> Forall P (visits stops b).
Proof.
  intros HP. apply Forall_forall. intros v Hv.
  apply list_elem_of_omap in Hv as (idx & _ & Hidx).
  destruct (stops !! idx) as [s|] eqn:Hs; [|done].
  injection Hidx as <-. apply HP. by eapply list_elem_of_lookup_2.
Qed.

(** X8. Whatever the solver answers, every visit of every route of a result is
    one of the input stops, with its own id, coordinates, name and demand: the
    depot is never listed and no stop is made up. *)
Theorem routes_hold_input_stops (libm : Libm) (ortools : option ORTools)
    (depot : LatLng) (stops : list Stop) (vehicle_count vehicle_capacity : Z)
    (depot_tw_start depot_tw_end : option string) (r : RoutingResult) :
  optimize_routes libm ortools depot stops vehicle_count vehicle_capacity
    depot_tw_start depot_tw_end = Ok r ->
  Forall (Forall (fun v => exists s, s ∈ stops /\ v = visit_of s)) (routes r).
Proof.
  set (P := fun v => exists s, s ∈ stops /\ v = visit_of s).
  assert (forall s, s ∈ stops -> P (visit_of s)) as HP by (intros s ?; by exists s).
  intros [[_ ->]|(_ & _ & _ & [(_ & _ & Hs)|(_ & _ & Hg & _)])]
    %optimize_routes_returns.
  - constructor.
  - destruct Hs as (solver & _ & Hs). 
    apply constrained_router_returns in Hs
      as (model & _ & (sol & _ & Hs)%bind_Ok).
    destruct sol as [sol|]; [|done].
    apply bind_Ok in Hs as ([rts tot] & Hread & (f & _ & [= <- _])%bind_Ok).
    eapply read_solution_visits in Hread; [done|done|constructor].
  - apply greedy_router_returns in Hg as (order & _ & _ & ->).
    unfold routes_of. apply Forall_map, Forall_forall. intros b _. simpl.
    by apply visits_of_stops.
Qed.

Lemma routes_hold_input_stops_witness :
  exists r,
    optimize_routes Sample.libm
      (Some (Sample.solver_answering (Some [[0; 2; 2]%nat; [0]%nat])))
      Sample.depot [Sample.stop_A; Sample.stop_B] 2 10 None None = Ok r /\
    Forall (Forall (fun v =>
                      exists s, s ∈ [Sample.stop_A; Sample.stop_B] /\
                                v = visit_of s)) (routes r).
Proof.
  eexists. split; [vm_compute; reflexivity|].
  apply (routes_hold_input_stops Sample.libm
           (Some (Sample.solver_answering (Some [[0; 2; 2]%nat; [0]%nat])))
           Sample.depot [Sample.stop_A; Sample.stop_B] 2 10 None None).
  vm_compute. reflexivity.
Defined.

(** X9. A result never has more routes than vehicles: at most [vehicle_count]
    from the solver, at most [max(1, vehicle_count)] from the fallback. *)
Theorem no_more_routes_than_vehicles (libm : Libm)
    (ortools : option ORTools) (depot : LatLng) (stops : list Stop)
    (vehicle_count vehicle_capacity : Z)
    (depot_tw_start depot_tw_end : option string) (r : RoutingResult) :
  optimize_routes libm ortools depot stops vehicle_count vehicle_capacity
    depot_tw_start depot_tw_end = Ok r ->
  Z.of_nat (length (routes r)) <= Z.max 1 vehicle_count /\
  (engine r = "ortools" ->
   Z.of_nat (length (routes r)) <= Z.max 0 vehicle_count).
Proof.
  intros Hr.
  pose proof Hr as
    [[_ ->]|(_ & _ & _ & [(He & _ & Hs)|(He & _ & Hg & _)])]
    %optimize_routes_returns.
  - simpl. split; [lia|done].
  - destruct Hs as (solver & _ & Hs). 
    apply constrained_router_returns in Hs
      as (model & _ & (sol & _ & Hs)%bind_Ok).
    destruct sol as [sol|]; [|done].
    apply bind_Ok in Hs as ([rts tot] & Hread & (f & _ & [= <- _])%bind_Ok).
    apply read_solution_length in Hread. simpl in Hread. lia.
  - split; [|by rewrite He].
    apply greedy_router_returns in Hg as (order & _ & Hperm & ->).
    unfold routes_of.
    rewrite length_map, round_robin_filter by lia.
    rewrite length_take, fill_buckets_length, length_replicate. lia.
Qed.

Lemma no_more_routes_than_vehicles_witness :
  exists r,
    optimize_routes Sample.libm
      (Some (Sample.solver_answering (Some [[0; 1]%nat; [0; 2]%nat])))
      Sample.depot [Sample.stop_A; Sample.stop_B] 2 10 None None = Ok r /\
    Z.of_nat (length (routes r)) <= Z.max 1 2 /\
    (engine r = "ortools" -> Z.of_nat (length (routes r)) <= Z.max 0 2).
Proof.
  eexists. split; [vm_compute; reflexivity|].
  apply (no_more_routes_than_vehicles Sample.libm
           (Some (Sample.solver_answering (Some [[0; 1]%nat; [0; 2]%nat])))
           Sample.depot [Sample.stop_A; Sample.stop_B] 2 10 None None).
  vm_compute. reflexivity.
Defined.

(** ** What the greedy fallback does not read *)

Section SameVisits.

Context (libm : Libm).

Lemma stop_pos_visit s s' : visit_of s = visit_of s' -> stop_pos s = stop_pos s'.
Proof. unfold visit_of, stop_pos. by intros [= _ -> -> _ _]. Qed.

Lemma same_visits_cons s ss s' ss' :
  map visit_of (s :: ss) = map visit_of (s' :: ss') ->
  visit_of s = visit_of s' /\ map visit_of ss = map visit_of ss'.
Proof.
  intros H. split.
  - apply (f_equal head) in H. simpl in H. by apply (inj Some).
  - by apply (f_equal tail) in H.
Qed.

Lemma same_visits_lookup stops stops' i :
  map visit_of stops = map visit_of stops' ->
  match stops !! i, stops' !! i with
  | Some s, Some s' => visit_of s = visit_of s'
  | None, None => True
  | _, _ => False
  end.
Proof.
  intros H. apply (f_equal (fun l => l !! i)) in H.
  rewrite !list_lookup_fmap in H.
  destruct (stops !! i), (stops' !! i); simpl in H;
    [by apply (inj Some)|discriminate|discriminate|done].
Qed.

Lemma nearest_same_visits visited curr ss :
  forall ss' i bi bd,
    map visit_of ss = map visit_of ss' ->
    nearest libm visited curr i ss bi bd
    = nearest libm visited curr i ss' bi bd.
Proof.
  induction ss as [|s ss IH]; intros [|s' ss'] i bi bd; try done.
  intros [Hs Hss]%same_visits_cons. simpl. rewrite (stop_pos_visit _ _ Hs).
  case_decide; [by apply IH|].
  destruct (haversine_miles libm curr (stop_pos s')); simpl; try done.
  case_match; by apply IH.
Qed.

Lemma greedy_loop_same_visits stops stops' fuel :
  map visit_of stops = map visit_of stops' ->
  forall visited order curr,
    greedy_loop libm fuel stops visited order curr
    = greedy_loop libm fuel stops' visited order curr.
Proof.
  intros H. pose proof (f_equal length H) as Hlen. rewrite !length_map in Hlen.
  induction fuel as [|fuel IH]; intros visited order curr; simpl;
    rewrite Hlen; case_decide; try done.
  rewrite (nearest_same_visits visited curr stops stops' 0 None infinity H).
  destruct (nearest libm visited curr 0 stops' None infinity)
    as [[[b|] rd]|e|]; simpl; try done.
  pose proof (same_visits_lookup stops stops' b H) as Hb.
  destruct (stops !! b) as [s|], (stops' !! b) as [s'|]; try done.
  rewrite (stop_pos_visit _ _ Hb). apply IH.
Qed.

Lemma walk_bucket_same_visits stops stops' b :
  map visit_of stops = map visit_of stops' ->
  forall curr vehicle total,
    walk_bucket libm stops b curr vehicle total
    = walk_bucket libm stops' b curr vehicle total.
Proof.
  intros H. induction b as [|idx b IH]; intros curr vehicle total; simpl;
    [done|].
  pose proof (same_visits_lookup stops stops' idx H) as Hb.
  destruct (stops !! idx) as [s|], (stops' !! idx) as [s'|]; try done.
  rewrite (stop_pos_visit _ _ Hb), Hb.
  destruct (haversine_miles libm curr (stop_pos s')); simpl; try done.
Qed.

Lemma walk_buckets_same_visits depot stops stops' buckets :
  map visit_of stops = map visit_of stops' ->
  forall routes total,
    walk_buckets libm depot stops buckets routes total
    = walk_buckets libm depot stops' buckets routes total.
Proof.
  intros H. induction buckets as [|b buckets IH]; intros routes total; simpl;
    [done|].
  rewrite (walk_bucket_same_visits stops stops' b H).
  destruct (walk_bucket libm stops' b depot [] total)
    as [[[curr vehicle] t]|e|]; simpl; try done.
  destruct (haversine_miles libm curr depot); simpl; try done.
Qed.

Lemma baseline_walk_same_visits stops :
  forall stops' curr baseline,
    map visit_of stops = map visit_of stops' ->
    baseline_walk libm stops curr baseline
    = baseline_walk libm stops' curr baseline.
Proof.
  induction stops as [|s stops IH]; intros [|s' stops'] curr baseline;
    try done.
  intros [Hs Hss]%same_visits_cons. simpl. rewrite (stop_pos_visit _ _ Hs).
  destruct (haversine_miles libm curr (stop_pos s')); simpl; try done.
  by apply IH.
Qed.

End SameVisits.

(** X10. The greedy fallback reads neither the time windows nor the capacity:
    without the solver, two requests whose stops agree on id, coordinates, name
    and demand get the same result, whatever their time windows, the depot's
    window and the vehicle capacity are. *)
Theorem fallback_ignores_windows_and_capacity (libm : Libm)
    (depot : LatLng) (stops stops' : list Stop)
    (vehicle_count vehicle_capacity vehicle_capacity' : Z)
    (tws twe tws' twe' : option string) :
  map visit_of stops = map visit_of stops' ->
  optimize_routes libm None depot stops vehicle_count vehicle_capacity
    tws twe
  = optimize_routes libm None depot stops' vehicle_count vehicle_capacity'
      tws' twe'.
Proof.
  intros H. pose proof (f_equal length H) as Hlen. rewrite !length_map in Hlen.
  unfold optimize_routes. rewrite Hlen. case_decide; [done|]. simpl.
  unfold greedy_router, greedy_buckets, _greedy_order, baseline_of.
  rewrite Hlen, (greedy_loop_same_visits libm stops stops' _ H).
  destruct (greedy_loop libm (length stops') stops' ∅ [] depot); simpl;
    try done.
  rewrite (walk_buckets_same_visits libm depot stops stops' _ H).
  rewrite (baseline_walk_same_visits libm stops stops' depot 0%float H).
  done.
Qed.

Lemma fallback_ignores_windows_and_capacity_witness :
  optimize_routes Sample.libm None Sample.depot
    [Sample.stop_A; Sample.stop_late] 2 10 None None
  = optimize_routes Sample.libm None Sample.depot
      [Sample.stop_A;
       mkStop "L" 51.51%float (-0.12)%float None 1 (Some "09:00")
         (Some "17:30")] 2 0 (Some "08:00") (Some "18:00").
Proof.
  apply (fallback_ignores_windows_and_capacity Sample.libm Sample.depot
           [Sample.stop_A; Sample.stop_late]
           [Sample.stop_A;
            mkStop "L" 51.51%float (-0.12)%float None 1 (Some "09:00")
              (Some "17:30")] 2 10 0 None None (Some "08:00") (Some "18:00")).
  reflexivity.
Defined.

(** ** The time-window codec *)

Lemma split_acc_length sep s :
  forall cur,
    length (Py.split_acc sep cur s) = S (count_occ ascii_dec s sep).
Proof.
  induction s as [|c s IH]; intros cur; simpl; [done|].
  destruct (Ascii.eqb_spec c sep) as [->|Hne].
  - simpl. rewrite IH. by destruct (ascii_dec sep sep).
  - rewrite IH. by destruct (ascii_dec c sep).
Qed.

Lemma int_raises s e : Py.int s = Raise e -> e = ValueError.
Proof. unfold Py.int. repeat case_match; congruence. Qed.

Lemma list_ascii_app (s1 s2 : string) :
  list_ascii_of_string (s1 ++ s2)%string
  = list_ascii_of_string s1 ++ list_ascii_of_string s2.
Proof. induction s1 as [|c s1 IH]; simpl; [done|]. by rewrite IH. Qed.

Lemma split_acc_single sep s :
  forall cur,
    count_occ ascii_dec s sep = 0%nat ->
    Py.split_acc sep cur s = [string_of_list_ascii (rev cur ++ s)].
Proof.
  induction s as [|c s IH]; intros cur; simpl.
  - by rewrite app_nil_r.
  - destruct (ascii_dec c sep) as [->|Hne]; [done|]. intros Hs.
    destruct (Ascii.eqb_spec c sep); [done|].
    rewrite IH by done. simpl. by rewrite <- app_assoc.
Qed.

Lemma split_acc_pair sep s :
  forall cur a b,
    Py.split_acc sep cur s = [a; b] <->
    exists l1 l2,
      s = l1 ++ sep :: l2 /\
      count_occ ascii_dec l1 sep = 0%nat /\
      count_occ ascii_dec l2 sep = 0%nat /\
      a = string_of_list_ascii (rev cur ++ l1) /\
      b = string_of_list_ascii l2.
Proof.
  induction s as [|c s IH]; intros cur a b; simpl.
  - split; [done|]. intros (l1 & l2 & Hs & _). by destruct l1.
  - destruct (Ascii.eqb_spec c sep) as [->|Hne].
    + split.
      * intros [= <- Hb].
        pose proof (split_acc_length sep s []) as Hlen.
        rewrite Hb in Hlen. simpl in Hlen.
        rewrite split_acc_single in Hb by lia. injection Hb as <-.
        exists [], s. rewrite app_nil_r. repeat split. lia.
      * intros (l1 & l2 & Hs & H1 & H2 & -> & ->).
        destruct l1 as [|c l1].
        -- injection Hs as ->. rewrite split_acc_single by done.
           by rewrite app_nil_r.
        -- injection Hs as <- _. simpl in H1.
           by destruct (ascii_dec sep sep).
    + rewrite IH. split.
      * intros (l1 & l2 & -> & H1 & H2 & -> & ->).
        exists (c :: l1), l2. simpl.
        destruct (ascii_dec c sep); [done|].
        repeat split; try done. by rewrite <- app_assoc.
      * intros (l1 & l2 & Hs & H1 & H2 & -> & ->).
        destruct l1 as [|c' l1]; [by injection Hs as ->|].
        injection Hs as <- ->. simpl in H1.
        destruct (ascii_dec c sep); [done|].
        exists l1, l2. repeat split; try done. simpl.
        by rewrite <- app_assoc.
Qed.

Lemma split_hhmm s hh mm :
  Py.split ":"%char s = [hh; mm] <->
  s = (hh ++ ":" ++ mm)%string /\ colons hh = 0%nat /\ colons mm = 0%nat.
Proof.
  unfold Py.split, colons. rewrite split_acc_pair. simpl. split.
  - intros (l1 & l2 & Hs & H1 & H2 & -> & ->).
    rewrite !list_ascii_of_string_of_list_ascii. split; [|done].
    rewrite <- (string_of_list_ascii_of_string s), Hs.
    clear. induction l1 as [|c l1 IH]; simpl; [done|]. by rewrite IH.
  - intros (-> & H1 & H2).
    exists (list_ascii_of_string hh), (list_ascii_of_string mm).
    rewrite list_ascii_app, !string_of_list_ascii_of_string. done.
Qed.

Lemma no_window_test s :
  String.eqb s EmptyString || String.eqb (Py.strip s) EmptyString
  || String.eqb (Py.lower s) "nan" = true <-> no_window s.
Proof.
  unfold no_window. rewrite !orb_true_iff, !String.eqb_eq. tauto.
Qed.

Lemma parse_hhmm_reads s v :
  parse_hhmm (Some s) = Ok (Some v) <-> ~ no_window s /\ reads_as s v.
Proof.
  unfold parse_hhmm. pose proof (no_window_test s) as Ht.
  destruct (_ || _); [split; [done|intros [Hn _]; tauto]|].
  assert (~ no_window s) as Hn by (rewrite <- Ht; done).
  split.
  - destruct (Py.split ":"%char s) as [|hh [|mm [|x l]]] eqn:Hsp; try done.
    intros (h & Hh & (m & Hm & [= <-])%bind_Ok)%bind_Ok.
    apply split_hhmm in Hsp as (-> & H1 & H2).
    split; [done|]. by exists hh, mm, h, m.
  - intros (_ & hh & mm & h & m & Hs & H1 & H2 & Hh & Hm & ->).
    rewrite (proj2 (split_hhmm s hh mm)) by done.
    rewrite Hh. simpl. by rewrite Hm.
Qed.

Lemma parse_hhmm_none s : parse_hhmm (Some s) = Ok None <-> no_window s.
Proof.
  unfold parse_hhmm. pose proof (no_window_test s) as Ht.
  destruct (_ || _); [tauto|].
  split; [|intros Hn; apply Ht in Hn; done].
  destruct (Py.split ":"%char s) as [|hh [|mm [|x l]]]; try done.
  by intros (h & Hh & (m & Hm & [=])%bind_Ok)%bind_Ok.
Qed.

Lemma parse_hhmm_raises s e : parse_hhmm (Some s) = Raise e -> e = ValueError.
Proof.
  unfold parse_hhmm. destruct (_ || _); [done|].
  destruct (Py.split ":"%char s) as [|hh [|mm [|x l]]]; try congruence.
  destruct (Py.int hh) as [h|e'|] eqn:Hh; simpl.
  - destruct (Py.int mm) as [m|e'|] eqn:Hm; simpl; [done| |done].
    intros [= <-]. by eapply int_raises.
  - intros [= <-]. by eapply int_raises.
  - done.
Qed.

(** X11. Every outcome of [parse_hhmm] on a string, each with its exact
    condition: [None] exactly for the empty string, a blank one and "nan" in
    any letter case; the number [v] exactly for a string that is none of
    these and reads [hh:mm], two pieces without a colon that [int] accepts,
    with [v = int(hh) * 60 + int(mm)]; ValueError exactly in every other
    case; and no other exception or outcome. *)
Theorem parse_hhmm_outcomes (s : string) :
  (parse_hhmm (Some s) = Ok None <-> no_window s) /\
  (forall v,
     parse_hhmm (Some s) = Ok (Some v) <-> ~ no_window s /\ reads_as s v) /\
  (parse_hhmm (Some s) = Raise ValueError <->
   ~ no_window s /\ forall v, ~ reads_as s v) /\
  (forall e, parse_hhmm (Some s) = Raise e -> e = ValueError) /\
  parse_hhmm (Some s) <> Diverge.
Proof.
  pose proof (ends_parse_hhmm (Some s)) as Hend.
  split; [apply parse_hhmm_none|]. split; [apply parse_hhmm_reads|].
  split; [|split; [apply parse_hhmm_raises|done]].
  split.
  - intros Hr.
    assert (~ no_window s) as Hn
      by (intros Hn%parse_hhmm_none; congruence).
    split; [done|]. intros v Hv.
    assert (parse_hhmm (Some s) = Ok (Some v)) by (by apply parse_hhmm_reads).
    congruence.
  - intros [Hn Hv].
    destruct (parse_hhmm (Some s)) as [[v|]|e|] eqn:Hp.
    + apply parse_hhmm_reads in Hp as [_ Hp]. by destruct (Hv v).
    + by apply parse_hhmm_none in Hp.
    + by rewrite (parse_hhmm_raises s e Hp).
    + done.
Qed.

Lemma hhmm_table :
  forallb (fun h => forallb (hhmm_reads_back h) (seq 0 100)) (seq 0 100)
  = true.
Proof. vm_cast_no_check (eq_refl true). Qed.

(** X12. A two-digit [HH:MM] reads back as [HH * 60 + MM] for every pair of
    numbers below a hundred, also for an hour above 23 and a minute above
    59: the codec checks no range. *)
Theorem parse_hhmm_two_digits (h m : nat) :
  (h < 100)%nat -> (m < 100)%nat ->
  parse_hhmm (Some (hhmm_text h m)) = Ok (Some (Z.of_nat (60 * h + m))).
Proof.
  intros Hh Hm. pose proof hhmm_table as Ht.
  rewrite forallb_forall in Ht.
  specialize (Ht h ltac:(apply in_seq; lia)).
  rewrite forallb_forall in Ht.
  specialize (Ht m ltac:(apply in_seq; lia)).
  unfold hhmm_reads_back in Ht.
  destruct (parse_hhmm (Some (hhmm_text h m))) as [[v|]|e|]; try done.
  apply Z.eqb_eq in Ht. by subst.
Qed.

Lemma parse_hhmm_two_digits_witness :
  parse_hhmm (Some (hhmm_text 25 99)) = Ok (Some (Z.of_nat (60 * 25 + 99))).
Proof. apply (parse_hhmm_two_digits 25 99); lia. Defined.

(** ** The travel time of the solver's time dimension *)

Lemma three_minutes_from_spec n :
  forall mmiles k,
    three_minutes_from n mmiles = true ->
    mmiles <= k < mmiles + Z.of_nat n ->
    three_minutes_a_mile k = true.
Proof.
  induction n as [|n IH]; intros mmiles k Hn Hk; [lia|].
  simpl in Hn. apply andb_true_iff in Hn as [H0 Hn].
  destruct (decide (k = mmiles)) as [->|Hne]; [done|].
  apply (IH (mmiles + 1)); [done|lia].
Qed.

Lemma three_minutes_table :
  three_minutes_from (Z.to_nat 100001) 0 = true.
Proof. vm_cast_no_check (eq_refl true). Qed.

(** X13. At 20 miles an hour a leg takes three minutes a mile, rounded
    down to the minute: for every entry of the distance matrix up to a
    hundred miles the travel time is [3 * mmiles / 1000], whatever the
    rounding of the two float divisions. *)
Theorem travel_time_three_minutes_a_mile (dist_mmile : list (list Z))
    (from_node to_node : nat) (mmiles : Z) :
  cell dist_mmile from_node to_node = Ok mmiles ->
  0 <= mmiles <= 100000 ->
  travel_time_callback dist_mmile from_node to_node
  = Ok (3 * mmiles / 1000).
Proof.
  intros Hc Hr.
  pose proof (three_minutes_from_spec _ 0 mmiles three_minutes_table
                ltac:(lia)) as Hk.
  unfold three_minutes_a_mile in Hk. unfold travel_time_callback in *.
  rewrite Hc. change (cell [[mmiles]] 0 0) with (Ok mmiles) in Hk.
  destruct (Ok mmiles ≫= _) as [minutes| |]; try done.
  apply Z.eqb_eq in Hk. by subst.
Qed.

Lemma travel_time_three_minutes_a_mile_witness :
  travel_time_callback [[0; 2999]; [2999; 0]] 0 1 = Ok (3 * 2999 / 1000).
Proof.
  apply (travel_time_three_minutes_a_mile _ 0 1 2999); [reflexivity|lia].
Defined.

(** ** The route map *)

Lemma mark_route_spec r_idx route :
  forall i coords layers,
    mark_route r_idx i route coords layers
    = (coords ++ map visit_pos route,
       layers ++ imap (fun p s => Marker (visit_pos s)
                                    (popup_text r_idx (i + p) s)
                                    (stop_label s)) route).
Proof.
  induction route as [|s route IH]; intros i coords layers; simpl.
  - by rewrite !app_nil_r.
  - rewrite IH, <- !app_assoc. simpl. rewrite Nat.add_0_r.
    do 3 f_equal. apply imap_ext. intros p x _. simpl.
    by rewrite Nat.add_succ_r.
Qed.

Lemma draw_routes_spec rts :
  forall r_idx layers,
    draw_routes r_idx rts layers
    = layers
      ++ concat (imap (fun v route => route_layers (r_idx + v) route) rts).
Proof.
  induction rts as [|route rts IH]; intros r_idx layers; simpl.
  - by rewrite app_nil_r.
  - rewrite mark_route_spec. simpl. rewrite length_map, Nat.add_0_r.
    assert (imap ((fun v route0 => route_layers (r_idx + v) route0) ∘ S) rts
            = imap (fun v route0 => route_layers (S r_idx + v) route0) rts)
      as ->.
    { apply imap_ext. intros v x _. simpl. by rewrite Nat.add_succ_r. }
    rewrite IH. unfold route_layers at 2.
    destruct (length route) as [|[|k]]; simpl;
      by rewrite <- ?app_assoc, ?app_nil_r.
Qed.

Lemma build_map_layers float_sum r m :
  build_map_html float_sum r = Ok m ->
  map_layers m
  = concat (imap (fun v route => route_layers (S v) route) (routes r)).
Proof.
  unfold build_map_html.
  intros (lat & _ & (lng & _ & [= <-])%bind_Ok)%bind_Ok. simpl.
  by rewrite draw_routes_spec.
Qed.

Lemma omap_concat {A B} (f : A -> option B) (ls : list (list A)) :
  omap f (concat ls) = concat (map (omap f) ls).
Proof.
  induction ls as [|l ls IH]; simpl; [done|]. by rewrite omap_app, IH.
Qed.

Lemma omap_imap_Some {A B C} (f : B -> option C) (g : nat -> A -> B)
    (h : nat -> A -> C) (l : list A) :
  (forall i x, f (g i x) = Some (h i x)) -> omap f (imap g l) = imap h l.
Proof.
  revert g h. induction l as [|x l IH]; intros g h Hf; simpl; [done|].
  rewrite Hf. simpl. f_equal. apply IH. intros i y. apply Hf.
Qed.

Lemma omap_imap_None {A B C} (f : B -> option C) (g : nat -> A -> B)
    (l : list A) :
  (forall i x, f (g i x) = None) -> omap f (imap g l) = [].
Proof.
  revert g. induction l as [|x l IH]; intros g Hf; simpl; [done|].
  rewrite Hf. apply IH. intros i y. apply Hf.
Qed.

Lemma map_imap {A B C} (g : B -> C) (f : nat -> A -> B) (l : list A) :
  map g (imap f l) = imap (fun i x => g (f i x)) l.
Proof.
  revert f. induction l as [|x l IH]; intros f; simpl; [done|].
  f_equal. apply IH.
Qed.

Lemma imap_no_index {A B} (h : A -> B) (l : list A) :
  imap (fun _ x => h x) l = map h l.
Proof. induction l as [|x l IH]; simpl; [done|]. f_equal. apply IH. Qed.

(** The markers and the lines of a map, route by route. *)
Lemma markers_by_route float_sum r m :
  build_map_html float_sum r = Ok m ->
  markers m
  = concat (imap (fun v route =>
                    imap (fun p s => (visit_pos s,
                                      popup_text (S v) (S p) s,
                                      stop_label s)) route) (routes r)).
Proof.
  intros Hm. unfold markers. rewrite (build_map_layers _ _ _ Hm).
  rewrite omap_concat, map_imap. f_equal. apply imap_ext.
  intros v route _. unfold route_layers. rewrite omap_app.
  rewrite (omap_imap_Some _ _
             (fun p s => (visit_pos s, popup_text (S v) (S p) s,
                          stop_label s))) by done.
  destruct (2 <=? length route)%nat; simpl; by rewrite app_nil_r.
Qed.

Lemma polylines_by_route float_sum r m :
  build_map_html float_sum r = Ok m ->
  polylines m
  = map (map visit_pos)
      (filter (fun route => 2 <= length route)%nat (routes r)).
Proof.
  intros Hm. unfold polylines. rewrite (build_map_layers _ _ _ Hm).
  rewrite omap_concat, map_imap.
  rewrite (imap_ext _ (fun _ route =>
             if (2 <=? length route)%nat then [map visit_pos route] else [])).
  - rewrite imap_no_index.
    induction (routes r) as [|route rts IH]; [done|].
    cbn [map concat]. rewrite IH.
    destruct (Nat.leb_spec 2 (length route)).
    + by rewrite filter_cons_True by done.
    + by rewrite filter_cons_False by lia.
  - intros v route _. unfold route_layers. rewrite omap_app.
    rewrite omap_imap_None by done.
    by destruct (2 <=? length route)%nat.
Qed.

Lemma marker_places (rts : list (list Visit)) :
  forall k : nat,
    map (fun x => x.1.1)
      (concat (imap (fun v route =>
                       imap (fun p s => (visit_pos s,
                                         popup_text (k + v) (S p) s,
                                         stop_label s)) route) rts))
    = map visit_pos (concat rts).
Proof.
  induction rts as [|route rts IH]; intros k; simpl; [done|].
  rewrite !map_app. f_equal.
  - rewrite map_imap. simpl. apply imap_no_index.
  - rewrite <- (IH (S k)). do 2 f_equal. apply imap_ext.
    intros v x _. simpl. by rewrite Nat.add_succ_r.
Qed.

(** X14. The markers of the map: one for each visit of each route, in the
    order of the routes and of their stops, at the coordinates of the
    visit. The popup numbers the route and the stop from 1, the number of a
    route being its place among the routes of the result; the tooltip is
    the name of the stop, or its id when the name is missing or empty. *)
Theorem map_markers (float_sum : list float -> float) (r : RoutingResult)
    (m : FoliumMap) :
  build_map_html float_sum r = Ok m ->
  map (fun x => x.1.1) (markers m) = map visit_pos (concat (routes r)) /\
  forall v route p s,
    routes r !! v = Some route -> route !! p = Some s ->
    (visit_pos s, popup_text (S v) (S p) s, stop_label s) ∈ markers m.
Proof.
  intros Hm. rewrite (markers_by_route _ _ _ Hm). split.
  - apply (marker_places (routes r) 1).
  - intros v route p s Hv Hp.
    apply list_elem_of_In, in_concat.
    exists (imap (fun p s => (visit_pos s, popup_text (S v) (S p) s,
                              stop_label s)) route).
    split; apply list_elem_of_In.
    + apply (elem_of_lookup_imap_2
               (fun v route =>
                  imap (fun p s => (visit_pos s, popup_text (S v) (S p) s,
                                    stop_label s)) route) _ _ v Hv).
    + apply (elem_of_lookup_imap_2
               (fun p s => (visit_pos s, popup_text (S v) (S p) s,
                            stop_label s)) _ _ p Hp).
Qed.

Lemma map_markers_witness :
  exists r m,
    optimize_routes Sample.libm None Sample.depot
      [Sample.stop_A; Sample.stop_B; Sample.stop_C] 2 10 None None = Ok r /\
    build_map_html plain_sum r = Ok m /\
    map (fun x => x.1.1) (markers m) = map visit_pos (concat (routes r)) /\
    forall v route p s,
      routes r !! v = Some route -> route !! p = Some s ->
      (visit_pos s, popup_text (S v) (S p) s, stop_label s) ∈ markers m.
Proof.
  eexists. eexists. split; [vm_compute; reflexivity|].
  split; [vm_compute; reflexivity|].
  apply (map_markers plain_sum). vm_compute. reflexivity.
Defined.

(** X15. The lines of the map: one for each route of two stops or more,
    through the coordinates of its stops in order. A route of a single stop
    gets its marker and no line, and no line reaches the depot. *)
Theorem map_polylines (float_sum : list float -> float) (r : RoutingResult)
    (m : FoliumMap) :
  build_map_html float_sum r = Ok m ->
  polylines m
  = map (map visit_pos)
      (filter (fun route => 2 <= length route)%nat (routes r)).
Proof. apply polylines_by_route. Qed.

Lemma map_polylines_witness :
  exists r m,
    optimize_routes Sample.libm None Sample.depot
      [Sample.stop_A; Sample.stop_B; Sample.stop_C] 2 10 None None = Ok r /\
    build_map_html plain_sum r = Ok m /\
    polylines m
    = map (map visit_pos)
        (filter (fun route => 2 <= length route)%nat (routes r)).
Proof.
  eexists. eexists. split; [vm_compute; reflexivity|].
  split; [vm_compute; reflexivity|].
  apply (map_polylines plain_sum). vm_compute. reflexivity.
Defined.

(** ** The map of a fallback result *)

Lemma fallback_visits libm ortools depot stops vehicle_count
    vehicle_capacity depot_tw_start depot_tw_end r :
  optimize_routes libm ortools depot stops vehicle_count vehicle_capacity
    depot_tw_start depot_tw_end = Ok r ->
  engine r = "greedy-fallback" ->
  concat (routes r) ≡ₚ map visit_of stops.
Proof.
  intros Hr He.
  destruct (fallback_result_routes _ _ _ _ _ _ _ _ _ Hr He)
    as (Hne & order & Ho & Hperm & ->).
  set (K := Z.to_nat (Z.max 1 vehicle_count)).
  assert (replicate K ([] : list nat) <> []) as Hrep
    by (destruct K eqn:HK; [lia|done]).
  rewrite visits_concat, <- visits_seq. unfold visits.
  apply omap_Permutation.
  rewrite fill_buckets_perm, concat_replicate_nil by done. by simpl.
Qed.

Lemma fallback_routes_count libm ortools depot stops vehicle_count
    vehicle_capacity depot_tw_start depot_tw_end r :
  optimize_routes libm ortools depot stops vehicle_count vehicle_capacity
    depot_tw_start depot_tw_end = Ok r ->
  engine r = "greedy-fallback" ->
  length (routes r)
  = Nat.min (length stops) (Z.to_nat (Z.max 1 vehicle_count)).
Proof.
  intros Hr He.
  destruct (fallback_result_routes _ _ _ _ _ _ _ _ _ Hr He)
    as (Hne & order & Ho & Hperm & ->).
  set (K := Z.to_nat (Z.max 1 vehicle_count)).
  assert (0 < K)%nat as HK by (subst K; lia).
  pose proof (Permutation_length Hperm) as Hn. rewrite length_seq in Hn.
  unfold routes_of. rewrite round_robin_filter by done.
  by rewrite length_map, length_take, fill_buckets_length, length_replicate,
    Hn.
Qed.

(** X16. The map of a fallback result shows every stop of the request
    exactly once: the places of its markers are the coordinates of the
    stops, rearranged. *)
Theorem fallback_map_marks_every_stop (libm : Libm)
    (float_sum : list float -> float) (ortools : option ORTools)
    (depot : LatLng) (stops : list Stop) (vehicle_count vehicle_capacity : Z)
    (depot_tw_start depot_tw_end : option string) (r : RoutingResult)
    (m : FoliumMap) :
  optimize_routes libm ortools depot stops vehicle_count vehicle_capacity
    depot_tw_start depot_tw_end = Ok r ->
  engine r = "greedy-fallback" ->
  build_map_html float_sum r = Ok m ->
  map (fun x => x.1.1) (markers m) ≡ₚ map stop_pos stops.
Proof.
  intros Hr He Hm.
  pose proof (marker_places (routes r) 1) as Hp. cbn [Nat.add] in Hp.
  rewrite (markers_by_route _ _ _ Hm), Hp.
  rewrite (fallback_visits _ _ _ _ _ _ _ _ _ Hr He).
  by rewrite map_map.
Qed.

Lemma fallback_map_marks_every_stop_witness :
  exists r m,
    optimize_routes Sample.libm None Sample.depot
      [Sample.stop_A; Sample.stop_B; Sample.stop_C] 2 10 None None = Ok r /\
    build_map_html plain_sum r = Ok m /\
    map (fun x => x.1.1) (markers m)
    ≡ₚ map stop_pos [Sample.stop_A; Sample.stop_B; Sample.stop_C].
Proof.
  eexists. eexists. split; [vm_compute; reflexivity|].
  split; [vm_compute; reflexivity|].
  eapply (fallback_map_marks_every_stop Sample.libm plain_sum None
            Sample.depot _ 2 10 None None).
  - vm_compute. reflexivity.
  - vm_compute. reflexivity.
  - vm_compute. reflexivity.
Defined.

(** X17. The map of a fallback result with [K = max(1, vehicle_count)]
    vehicles and [n] stops has [min(K, n - K)] lines: none when every stop
    has a vehicle of its own, one for every vehicle once there are twice as
    many stops as vehicles. *)
Theorem fallback_map_lines (libm : Libm) (float_sum : list float -> float)
    (ortools : option ORTools) (depot : LatLng) (stops : list Stop)
    (vehicle_count vehicle_capacity : Z)
    (depot_tw_start depot_tw_end : option string) (r : RoutingResult)
    (m : FoliumMap) :
  optimize_routes libm ortools depot stops vehicle_count vehicle_capacity
    depot_tw_start depot_tw_end = Ok r ->
  engine r = "greedy-fallback" ->
  build_map_html float_sum r = Ok m ->
  let K := Z.to_nat (Z.max 1 vehicle_count) in
  length (polylines m) = Nat.min K (length stops - K).
Proof.
  intros Hr He Hm K.
  assert (0 < K)%nat as HK by (subst K; lia).
  rewrite (polylines_by_route _ _ _ Hm).
  rewrite length_map, (filter_prefix _ _ (length stops - K)%nat).
  - rewrite length_take, (fallback_routes_count _ _ _ _ _ _ _ _ _ Hr He).
    fold K. lia.
  - intros v route Hv.
    destruct (fallback_route_length _ _ _ _ _ _ _ _ _ _ _ Hr He Hv)
      as (HvK & Hvn & ->). fold K.
    split.
    + intros H2.
      destruct (Nat.lt_ge_cases v (length stops - K)) as [|Hge]; [done|].
      assert ((length stops + K - 1 - v) / K < 2)%nat; [|lia].
      apply Nat.Div0.div_lt_upper_bound. lia.
    + intros Hlt. apply Nat.div_le_lower_bound; lia.
Qed.

Lemma fallback_map_lines_witness :
  exists r m,
    optimize_routes Sample.libm None Sample.depot
      [Sample.stop_A; Sample.stop_B; Sample.stop_C] 2 10 None None = Ok r /\
    build_map_html plain_sum r = Ok m /\
    length (polylines m) = Nat.min (Z.to_nat (Z.max 1 2)) (3 - Z.to_nat (Z.max 1 2)).
Proof.
  eexists. eexists. split; [vm_compute; reflexivity|].
  split; [vm_compute; reflexivity|].
  eapply (fallback_map_lines Sample.libm plain_sum None Sample.depot
            [Sample.stop_A; Sample.stop_B; Sample.stop_C] 2 10 None None).
  - vm_compute. reflexivity.
  - vm_compute. reflexivity.
  - vm_compute. reflexivity.
Defined.
